(** * rpi-vidlooper: a shallow embedding of [vidlooper.py]

    The development follows the source file top to bottom:
    - [Py]: the pieces of the Python runtime the program relies on
      (exceptions, [str.split], [int], insertion-ordered [dict],
      [tuple.index], [os.path] helpers, global name lookup);
    - [GpioParser]: [_GpioParser.__call__];
    - [Looper]: the [VidLooper] class ([__init__], [_kill_process],
      [switch_vid], [in_pins], [start] and its idle poll loop) over an
      explicit world holding the GPIO levels and the logs of calls made to
      the GPIO library, the playback engine and the host.

    Pins are Python integers ([Z]); strings are ASCII text. *)

From Stdlib Require Import ZArith String Ascii List Bool Lia Sorted.
From stdpp Require Import base option list gmap strings pretty.

Local Open Scope Z_scope.
Local Open Scope string_scope.

(* ===================================================================== *)
(** * The Python runtime, as far as the program uses it                   *)
(* ===================================================================== *)
Module Py.

(** The exceptions the program raises or lets escape. *)
Inductive exn : Type :=
| ValueError (msg : string)
| IndexError (msg : string)
| NameError (name : string)
| AttributeError (msg : string)
| FileNotFoundError (msg : string)
| AssertionError (msg : string)
| Exception (msg : string).

(** A call either returns a value or raises. *)
Inductive result (A : Type) : Type :=
| Ok (a : A)
| Raise (e : exn).
Arguments Ok {A} a.
Arguments Raise {A} e.

Definition bind {A B} (r : result A) (k : A -> result B) : result B :=
  match r with
  | Ok a => k a
  | Raise e => Raise e
  end.

Definition is_ok {A} (r : result A) : bool :=
  match r with Ok _ => true | Raise _ => false end.

(** The double-quote character, for messages that embed one. *)
Definition dquote : string := String (ascii_of_nat 34) EmptyString.

(** ** [str.split(sep)] for a one-character separator: every occurrence
    splits, and the result is never empty ([''.split(',') == ['']]). *)
Fixpoint split (sep : ascii) (s : string) : list string :=
  match s with
  | EmptyString => [EmptyString]
  | String c s' =>
      if Ascii.eqb c sep then EmptyString :: split sep s'
      else match split sep s' with
           | h :: t => String c h :: t
           | [] => [String c EmptyString]
           end
  end.

(** ** [int(s)] in base 10 on ASCII text: optional surrounding white
    space, an optional sign, then digits in which single underscores may
    separate digits.  [None] stands for [ValueError].  This is [int] on
    its ASCII inputs of at most 4300 digits; the Unicode digits and white
    space [int] also accepts, and the interpreter's refusal of longer
    literals, are left out, and a property that needs the exact domain of
    [int] says so in its hypotheses. *)
Definition is_space (c : ascii) : bool :=
  let n := nat_of_ascii c in
  Nat.eqb n 32 || (Nat.leb 9 n && Nat.leb n 13).

Definition digit_value (c : ascii) : option Z :=
  let n := nat_of_ascii c in
  if Nat.leb 48 n && Nat.leb n 57 then Some (Z.of_nat n - 48) else None.

Fixpoint lstrip (cs : list ascii) : list ascii :=
  match cs with
  | c :: cs' => if is_space c then lstrip cs' else cs
  | [] => []
  end.

(** Scans the digit run; [prev_us] records that the previous character
    was an underscore (two in a row, or a trailing one, are errors). *)
Fixpoint scan_digits (acc : Z) (prev_us : bool) (cs : list ascii)
  : option (Z * list ascii) :=
  match cs with
  | [] => if prev_us then None else Some (acc, [])
  | c :: cs' =>
      match digit_value c with
      | Some d => scan_digits (10 * acc + d) false cs'
      | None =>
          if Ascii.eqb c "_"%char
          then (if prev_us then None else scan_digits acc true cs')
          else (if prev_us then None else Some (acc, cs))
      end
  end.

Definition int (s : string) : option Z :=
  let cs := lstrip (list_ascii_of_string s) in
  let '(neg, ds) :=
    match cs with
    | c :: r =>
        if Ascii.eqb c "+"%char then (false, r)
        else if Ascii.eqb c "-"%char then (true, r)
        else (false, cs)
    | [] => (false, cs)
    end in
  match ds with
  | [] => None
  | c :: _ =>
      match digit_value c with
      | None => None
      | Some _ =>
          match scan_digits 0 false ds with
          | None => None
          | Some (v, rest) =>
              match lstrip rest with
              | [] => Some (if neg then - v else v)
              | _ :: _ => None
              end
          end
      end
  end.

(** ** [dict] with integer keys, in insertion order.  An association
    list whose keys are pairwise distinct; [setitem] keeps the position
    of a key that is already present. *)
Definition dict (V : Type) : Type := list (Z * V).

Definition keys {V} (d : dict V) : list Z := map fst d.
Definition values {V} (d : dict V) : list V := map snd d.

Definition contains {V} (k : Z) (d : dict V) : bool :=
  existsb (Z.eqb k) (keys d).

Fixpoint setitem {V} (k : Z) (v : V) (d : dict V) : dict V :=
  match d with
  | [] => [(k, v)]
  | (k', v') :: d' =>
      if Z.eqb k k' then (k', v) :: d' else (k', v') :: setitem k v d'
  end.

(** The invariant every Python dict satisfies. *)
Definition dict_wf {V} (d : dict V) : Prop := NoDup (keys d).

(** ** [tuple.index(x)]: position of the first occurrence; [None] stands
    for [ValueError]. *)
Fixpoint index (x : Z) (l : list Z) : option nat :=
  match l with
  | [] => None
  | y :: l' => if Z.eqb y x then Some 0%nat else S <$> index x l'
  end.

(** ** [os.path.splitext] (POSIX): the extension starts at the last dot
    of the last path component, unless that component has only leading
    dots before it. *)
Fixpoint rfind_from (c : ascii) (i : Z) (cs : list ascii) (last : Z) : Z :=
  match cs with
  | [] => last
  | x :: r => rfind_from c (i + 1) r (if Ascii.eqb x c then i else last)
  end.

Definition rfind (c : ascii) (cs : list ascii) : Z := rfind_from c 0 cs (-1).

Definition splitext (p : string) : string * string :=
  let cs := list_ascii_of_string p in
  let sepIndex := rfind "/"%char cs in
  let dotIndex := rfind "."%char cs in
  if Z.ltb sepIndex dotIndex then
    let filenameIndex := sepIndex + 1 in
    let before_dot :=
      take (Z.to_nat (dotIndex - filenameIndex))
           (drop (Z.to_nat filenameIndex) cs) in
    if existsb (fun x => negb (Ascii.eqb x "."%char)) before_dot
    then (string_of_list_ascii (take (Z.to_nat dotIndex) cs),
          string_of_list_ascii (drop (Z.to_nat dotIndex) cs))
    else (p, EmptyString)
  else (p, EmptyString).

(** ** [os.path.join(a, b)] (POSIX, two arguments). *)
Definition startswith_sep (s : string) : bool :=
  match s with String c _ => Ascii.eqb c "/"%char | EmptyString => false end.

Fixpoint endswith_sep (s : string) : bool :=
  match s with
  | EmptyString => false
  | String c EmptyString => Ascii.eqb c "/"%char
  | String _ s' => endswith_sep s'
  end.

Definition join (a b : string) : string :=
  if startswith_sep b then b
  else if String.eqb a EmptyString || endswith_sep a then a ++ b
  else a ++ "/" ++ b.

(** ** [sorted] on strings: ascending by code point.  The result of a
    stable sort is determined by the order, so insertion sort stands for
    it. *)
Fixpoint insert_sorted (x : string) (l : list string) : list string :=
  match l with
  | [] => [x]
  | y :: l' => if String.leb x y then x :: l else y :: insert_sorted x l'
  end.

Definition sorted (l : list string) : list string :=
  fold_right insert_sorted [] l.

(** ** Global name lookup.  A free name of a function body is looked up
    in the module's globals, then in the builtins; a miss raises
    [NameError]. *)
Definition lookup_name (globals builtins : list string) (name : string)
  : result unit :=
  if existsb (String.eqb name) globals || existsb (String.eqb name) builtins
  then Ok tt
  else Raise (NameError ("name '" ++ name ++ "' is not defined")).

(** The builtins the source refers to. *)
Definition builtins : list string :=
  ["int"; "len"; "tuple"; "sorted"; "print"; "setattr"; "vars"; "object";
   "property"; "ValueError"; "IndexError"; "FileNotFoundError";
   "Exception"; "True"; "False"; "None"].

End Py.

Import Py.

(* ===================================================================== *)
(** * [_GpioParser]: the [--gpio-pins] spec string                        *)
(* ===================================================================== *)
Module GpioParser.

(** The mapping being built: input pin to optional output pin. *)
Definition gpio_dict : Type := dict (option Z).

(** [0 == len(pair_split) > 2], a chained comparison: both
    [0 == len(pair_split)] and [len(pair_split) > 2]. *)
Definition invalid_format (pair_split : list string) : bool :=
  Nat.eqb 0 (length pair_split) && Nat.ltb 2 (length pair_split).

(** One iteration of the loop over [pin_pairs]. *)
Definition parse_pair (d : gpio_dict) (pair : string) : result gpio_dict :=
  let pair_split := split ":"%char pair in
  if invalid_format pair_split
  then Raise (ValueError "Invalid GPIO pin format")
  else
    match pair_split !! 0%nat with
    | None => Raise (IndexError "list index out of range")
    | Some f0 =>
        match int f0 with
        | None => Raise (ValueError "GPIO input pin must be numeric integer")
        | Some in_pin =>
            bind
              (match pair_split !! 1%nat with
               | None => Ok None
               | Some f1 =>
                   match int f1 with
                   | None =>
                       Raise (ValueError
                                "GPIO output pin must be numeric integer")
                   | Some o => Ok (Some o)
                   end
               end)
              (fun out_pin =>
                 if contains in_pin d
                 then Raise (ValueError
                               ("Duplicate GPIO input pin: " ++ pretty in_pin))
                 else Ok (setitem in_pin out_pin d))
        end
    end.

Fixpoint parse_pairs (d : gpio_dict) (pin_pairs : list string)
  : result gpio_dict :=
  match pin_pairs with
  | [] => Ok d
  | pin_pair :: rest =>
      bind (parse_pair d pin_pair) (fun d' => parse_pairs d' rest)
  end.

(** [__call__]: the value stored under [namespace.gpio_pins]. *)
Definition call (values : string) : result gpio_dict :=
  parse_pairs [] (split ","%char values).

End GpioParser.

(* ===================================================================== *)
(** * The collaborators: GPIO library, playback engine, host              *)
(* ===================================================================== *)

(** [RPi.GPIO], as the program uses it: a store of driven levels and the
    calls made.  [output] records the level the pin is driven to. *)
Module Gpio.

Inductive level : Type := LOW | HIGH.

#[global] Instance level_eq_dec : EqDecision level.
Proof. solve_decision. Defined.

(** The two callbacks the program registers. *)
Inductive handler : Type := switch_vid_handler | shutdown_handler.

Inductive call : Type :=
| setmode_BCM
| setup_IN_PUD_UP (pin : Z)
| setup_OUT (pin : Z)
| output (pin : Z) (l : level)
| add_event_detect_FALLING (pin : Z) (callback : handler) (bouncetime : Z)
| cleanup.

(** Effect of one call on the driven levels. *)
Definition drive (c : call) (lv : gmap Z level) : gmap Z level :=
  match c with
  | output pin l => <[pin := l]> lv
  | cleanup => ∅
  | _ => lv
  end.

End Gpio.

(** [python-vlc], as the program uses it: one media player whose session
    is the loaded media and the engine state. *)
Module Vlc.

Inductive State : Type :=
| NothingSpecial | Opening | Buffering | Playing | Paused | Stopped
| Ended | Error.

#[global] Instance State_eq_dec : EqDecision State.
Proof. solve_decision. Defined.

Record Media : Type := mkMedia { mrl : string; options : list string }.

Record MediaPlayer : Type :=
  mkPlayer { media : option Media; state : State }.

Record Instance : Type := mkInstance { instance_args : string }.

Inductive call : Type :=
| Instance_new (args : string)
| media_player_new
| media_new (mrl : string)
| stop
| set_media (m : Media)
| play
| add_option (o : string).

Definition do_stop (p : MediaPlayer) : MediaPlayer :=
  mkPlayer (media p) Stopped.

Definition do_set_media (m : Media) (p : MediaPlayer) : MediaPlayer :=
  mkPlayer (Some m) (state p).

Definition do_play (p : MediaPlayer) : MediaPlayer :=
  mkPlayer (media p)
           (match media p with Some _ => Playing | None => state p end).

(** [get_media().add_option(o)]: the option lands on the loaded media. *)
Definition do_add_option (o : string) (p : MediaPlayer) : MediaPlayer :=
  mkPlayer ((fun m => mkMedia (mrl m) (options m ++ [o])) <$> media p)
           (state p).

End Vlc.

(** The host: terminal commands, standard output, child processes. *)
Module Host.

Inductive call : Type :=
| system (cmd : string)
| print (line : string)
| subprocess_call (argv : list string)
| Popen (argv : list string)
| killpg_SIGKILL (argv : list string)
| traceback (e : exn).

End Host.

(* ===================================================================== *)
(** * The [VidLooper] class                                               *)
(* ===================================================================== *)
Module Looper.

Import Gpio Vlc.

(** Names bound at the top level of [vidlooper.py]: its imports, its two
    classes and [main]. *)
Definition module_globals : list string :=
  ["GPIO"; "os"; "sys"; "time"; "Lock"; "signal"; "argparse"; "vlc";
   "_GpioParser"; "VidLooper"; "main"].

Definition _GPIO_BOUNCE_TIME : Z := 200.

Definition _VIDEO_EXTS : list string :=
  [".mp4"; ".m4v"; ".mov"; ".avi"; ".mkv"].

Definition _GPIO_PIN_DEFAULT : dict (option Z) :=
  [(26, Some 21); (19, Some 20); (13, Some 16); (6, Some 12)].

(** The attributes of a [VidLooper] object.  [_active_vid] starts from
    the class attribute [None]; [_player] is the class attribute [None]
    until [__init__] assigns it. *)
Record VidLooper : Type := mkVidLooper {
  gpio_pins : dict (option Z);
  shutdown_pin : option Z;
  videos : list string;
  debug : bool;
  audio : string;
  autostart : bool;
  restart_on_press : bool;
  loop : bool;
  no_osd : bool;
  splash : option string;
  _splashproc : option (list string);
  _instance : Instance;
  _player : option MediaPlayer;
  _active_vid : option string
}.

Definition set_active_vid (v : option string) (s : VidLooper) : VidLooper :=
  mkVidLooper (gpio_pins s) (shutdown_pin s) (videos s) (debug s) (audio s)
    (autostart s) (restart_on_press s) (loop s) (no_osd s) (splash s)
    (_splashproc s) (_instance s) (_player s) v.

Definition set_player (p : option MediaPlayer) (s : VidLooper) : VidLooper :=
  mkVidLooper (gpio_pins s) (shutdown_pin s) (videos s) (debug s) (audio s)
    (autostart s) (restart_on_press s) (loop s) (no_osd s) (splash s)
    (_splashproc s) (_instance s) p (_active_vid s).

Definition set_splashproc (p : option (list string)) (s : VidLooper)
  : VidLooper :=
  mkVidLooper (gpio_pins s) (shutdown_pin s) (videos s) (debug s) (audio s)
    (autostart s) (restart_on_press s) (loop s) (no_osd s) (splash s)
    p (_instance s) (_player s) (_active_vid s).

Definition set_no_osd (b : bool) (s : VidLooper) : VidLooper :=
  mkVidLooper (gpio_pins s) (shutdown_pin s) (videos s) (debug s) (audio s)
    (autostart s) (restart_on_press s) (loop s) b (splash s)
    (_splashproc s) (_instance s) (_player s) (_active_vid s).

(** [in_pins]: the tuple of the mapping's keys. *)
Definition in_pins (s : VidLooper) : list Z := keys (gpio_pins s).

(** The output pins that are configured, in mapping order. *)
Definition out_pins (s : VidLooper) : list Z :=
  omap id (values (gpio_pins s)).

(** ** The world outside the object *)
Record World : Type := mkWorld {
  levels : gmap Z level;
  gpio_log : list Gpio.call;
  vlc_log : list Vlc.call;
  host_log : list Host.call
}.

Definition initial_world : World := mkWorld ∅ [] [] [].

(** The state a method runs in: the object and the world. *)
Record St : Type := mkSt { self : VidLooper; world : World }.

(** ** Methods: state passing with exceptions.  A raise keeps the state
    reached so far. *)
Definition M (A : Type) : Type := St -> result A * St.

#[global] Instance M_ret : MRet M := fun A a st => (Ok a, st).

#[global] Instance M_bind : MBind M := fun A B k m st =>
  match m st with
  | (Ok a, st') => k a st'
  | (Raise e, st') => (Raise e, st')
  end.

Definition raise {A} (e : exn) : M A := fun st => (Raise e, st).

Definition get_self : M VidLooper := fun st => (Ok (self st), st).

Definition modify_self (f : VidLooper -> VidLooper) : M unit :=
  fun st => (Ok tt, mkSt (f (self st)) (world st)).

Definition gpio (c : Gpio.call) : M unit := fun st =>
  let w := world st in
  (Ok tt, mkSt (self st)
            (mkWorld (drive c (levels w)) (gpio_log w ++ [c])
                     (vlc_log w) (host_log w))).

Definition vlc (c : Vlc.call) : M unit := fun st =>
  let w := world st in
  (Ok tt, mkSt (self st)
            (mkWorld (levels w) (gpio_log w) (vlc_log w ++ [c])
                     (host_log w))).

Definition host (c : Host.call) : M unit := fun st =>
  let w := world st in
  (Ok tt, mkSt (self st)
            (mkWorld (levels w) (gpio_log w) (vlc_log w)
                     (host_log w ++ [c]))).

Definition of_option {A} (o : option A) (e : exn) : M A :=
  match o with Some a => mret a | None => raise e end.

Definition of_result {A} (r : result A) : M A := fun st => (r, st).

(** A [for] loop over a list. *)
Fixpoint for_each {A} (l : list A) (body : A -> M unit) : M unit :=
  match l with
  | [] => mret tt
  | x :: l' => body x;; for_each l' body
  end.

(** A method call on [self._player]: on [None] the attribute lookup
    raises. *)
Definition on_player (name : string) (c : Vlc.call)
           (f : MediaPlayer -> MediaPlayer) : M unit :=
  s ← get_self;
  match _player s with
  | None =>
      raise (AttributeError
               ("'NoneType' object has no attribute '" ++ name ++ "'"))
  | Some p => vlc c;; modify_self (set_player (Some (f p)))
  end.

(** ** [_kill_process] *)
Definition _kill_process : M unit :=
  s ← get_self;
  match _player s with
  | Some p => on_player "stop" stop do_stop
  | None => mret tt
  end.

(** ** [switch_vid] *)
Definition switch_vid (pin : Z) : M unit :=
  s ← get_self;
  for_each (gpio_pins s) (fun '(in_pin, out_pin) =>
    match out_pin with
    | Some o => gpio (output o (if Z.eqb in_pin pin then HIGH else LOW))
    | None => mret tt
    end);;
  k ← of_option (index pin (in_pins s))
                (ValueError "tuple.index(x): x not in tuple");
  filename ← of_option (videos s !! k)
                       (IndexError "list index out of range");
  if negb (bool_decide (Some filename = _active_vid s)) || restart_on_press s
  then
    host (Host.print filename);;
    _kill_process;;
    vlc (media_new filename);;
    let media := mkMedia filename [] in
    on_player "set_media" (set_media media) (do_set_media media);;
    on_player "play" play do_play;;
    (if loop s then
       on_player "set_media" (set_media media) (do_set_media media);;
       on_player "get_media" (add_option "input-repeat=-1")
                 (do_add_option "input-repeat=-1")
     else mret tt);;
    modify_self (set_active_vid (Some filename))
  else mret tt.

(** ** [__init__] *)

(** The keyword arguments of the constructor. *)
Record Args : Type := mkArgs {
  arg_audio : string;
  arg_autostart : bool;
  arg_restart_on_press : bool;
  arg_video_dir : string;
  arg_videos : option (list string);
  arg_gpio_pins : option (dict (option Z));
  arg_loop : bool;
  arg_no_osd : bool;
  arg_shutdown_pin : option Z;
  arg_splash : option string;
  arg_debug : bool
}.

Definition with_no_osd (b : bool) (a : Args) : Args :=
  mkArgs (arg_audio a) (arg_autostart a) (arg_restart_on_press a)
    (arg_video_dir a) (arg_videos a) (arg_gpio_pins a) (arg_loop a) b
    (arg_shutdown_pin a) (arg_splash a) (arg_debug a).

(** [gpio_pins], after the [None] default is replaced. *)
Definition pins_of (a : Args) : dict (option Z) :=
  match arg_gpio_pins a with
  | Some d => d
  | None => _GPIO_PIN_DEFAULT
  end.

Section FileSystem.

(** The disk the constructor looks at: [os.path.exists] and
    [os.listdir]. *)
Variable path_exists : string -> bool.
Variable listdir : string -> result (list string).

(** The loop over an explicit list: the first missing path raises. *)
Fixpoint check_videos (vs : list string) : result unit :=
  match vs with
  | [] => Ok tt
  | video :: rest =>
      if path_exists video then check_videos rest
      else Raise (FileNotFoundError
                    ("Video " ++ dquote ++ video ++ dquote ++ " not found"))
  end.

Definition is_video (f : string) : bool :=
  existsb (String.eqb (snd (splitext f))) _VIDEO_EXTS.

Definition scan_dir (video_dir : string) : result (list string) :=
  bind (listdir video_dir) (fun names =>
    Ok (map (join video_dir) (List.filter is_video (sorted names)))).

(** The [if videos: ... else: ...] block: an empty or absent list is
    falsy and falls through to the directory scan. *)
Definition select_videos (a : Args) : result (list string) :=
  match arg_videos a with
  | Some (v :: vs) => bind (check_videos (v :: vs)) (fun _ => Ok (v :: vs))
  | _ =>
      bind (scan_dir (arg_video_dir a)) (fun found =>
        match found with
        | [] => Raise (Exception
                         ("No videos found in " ++ dquote ++ arg_video_dir a
                          ++ dquote ++ ". Please specify a different "
                          ++ "directory or filename(s)."))
        | _ :: _ => Ok found
        end)
  end.

Definition __init__ (a : Args) (w : World) : result VidLooper * World :=
  match select_videos a with
  | Raise e => (Raise e, w)
  | Ok vids =>
      if Nat.leb (length vids) (length (pins_of a)) then
        let inst := mkInstance ("--aout=" ++ arg_audio a) in
        (Ok (mkVidLooper (pins_of a) (arg_shutdown_pin a) vids
               (arg_debug a) (arg_audio a) (arg_autostart a)
               (arg_restart_on_press a) (arg_loop a) (arg_no_osd a)
               (arg_splash a) None inst
               (Some (mkPlayer None NothingSpecial)) None),
         mkWorld (levels w) (gpio_log w)
           (vlc_log w ++ [Instance_new (instance_args inst);
                          media_player_new])
           (host_log w))
      else
        (Raise (AssertionError
                  "Not enough GPIO pins configured for number of videos"),
         w)
  end.

End FileSystem.

(** ** [start], up to the idle loop *)

(** The shutdown pin's callback,
    [lambda _: call(['shutdown', '-h', 'now'], shell=False)]. *)
Definition shutdown_callback : M unit :=
  of_result (lookup_name module_globals builtins "call");;
  host (Host.subprocess_call ["shutdown"; "-h"; "now"]).

(** [if self.shutdown_pin:] -- [None] and [0] are falsy. *)
Definition shutdown_configured (s : VidLooper) : option Z :=
  match shutdown_pin s with
  | Some p => if Z.eqb p 0 then None else Some p
  | None => None
  end.

Definition start_setup : M unit :=
  s ← get_self;
  (if debug s then mret tt
   else host (Host.system "clear");; host (Host.system "tput civis"));;
  gpio setmode_BCM;;
  for_each (gpio_pins s) (fun '(in_pin, out_pin) =>
    gpio (setup_IN_PUD_UP in_pin);;
    match out_pin with
    | Some o => gpio (setup_OUT o);; gpio (output o LOW)
    | None => mret tt
    end);;
  (match shutdown_configured s with
   | Some p =>
       gpio (setup_IN_PUD_UP p);;
       gpio (add_event_detect_FALLING p shutdown_handler _GPIO_BOUNCE_TIME)
   | None => mret tt
   end);;
  (if autostart s then
     match splash s with
     | Some image =>
         let argv := ["fbi"; "--noverbose"; "-a"; image] in
         of_result (lookup_name module_globals builtins "Popen");;
         host (Host.Popen argv);;
         modify_self (set_splashproc (Some argv))
     | None =>
         first ← of_option (head (in_pins s))
                           (IndexError "tuple index out of range");
         switch_vid first
     end
   else mret tt);;
  for_each (in_pins s) (fun pin =>
    gpio (add_event_detect_FALLING pin switch_vid_handler _GPIO_BOUNCE_TIME)).

(** One iteration of the [while True] loop, after its [time.sleep]. *)
Definition poll_iteration : M unit :=
  s ← get_self;
  if loop s then mret tt
  else
    match _player s with
    | Some p =>
        if bool_decide (state p = Ended) then
          for_each (values (gpio_pins s)) (fun out_pin =>
            match out_pin with
            | Some o => gpio (output o LOW)
            | None => mret tt
            end);;
          modify_self (set_active_vid None)
        else mret tt
    | None => mret tt
    end.

(** ** [__del__], on an object [__init__] has returned: every attribute
    it reads is there.  The interpreter also runs it on the object a
    failed construction leaves; [finalize] below covers that object. *)
Definition __del__ : M unit :=
  s ← get_self;
  (if debug s then mret tt else host (Host.system "tput cnorm"));;
  gpio cleanup;;
  _kill_process;;
  match _splashproc s with
  | Some argv => host (Host.killpg_SIGKILL argv)
  | None => mret tt
  end.

(** ** The running program: what reaches it while it idles *)
Inductive event : Type :=
| Press (pin : Z)              (* falling edge on a pin *)
| ShutdownEdge                 (* falling edge on the shutdown pin *)
| Poll                         (* the idle loop wakes up *)
| EngineReports (s : State)    (* the playback engine changes state *)
| Interrupt.                   (* the loop is interrupted *)

Definition engine_reports (e : State) (st : St) : St :=
  match _player (self st) with
  | Some p => mkSt (set_player (Some (mkPlayer (media p) e)) (self st))
                   (world st)
  | None => st
  end.

(** A callback runs on the GPIO library's thread: an exception escaping
    it is printed there and the state reached is kept. *)
Definition in_callback (m : M unit) (st : St) : St :=
  match m st with
  | (Ok _, st') => st'
  | (Raise e, st') => snd (host (Host.traceback e) st')
  end.

(** Only pins with a registered callback produce calls. *)
Definition deliver (ev : event) (st : St) : St :=
  match ev with
  | Press pin =>
      if contains pin (gpio_pins (self st))
      then in_callback (switch_vid pin) st
      else st
  | ShutdownEdge =>
      match shutdown_configured (self st) with
      | Some _ => in_callback shutdown_callback st
      | None => st
      end
  | Poll => snd (poll_iteration st)
  | EngineReports e => engine_reports e st
  | Interrupt => st
  end.

(** The [try: while True ... finally: self.__del__()] loop over the
    events that occur: an interrupt runs the teardown and ends it. *)
Fixpoint idle_loop (evs : list event) (st : St) : St :=
  match evs with
  | [] => st
  | Interrupt :: _ => snd (__del__ st)
  | ev :: rest => idle_loop rest (deliver ev st)
  end.

(** [start]: an exception before the loop escapes with the state reached. *)
Definition start (evs : list event) (st : St) : result unit * St :=
  match start_setup st with
  | (Ok _, st') => (Ok tt, idle_loop evs st')
  | (Raise e, st') => (Raise e, st')
  end.

(** What [main] runs: construct the looper from the parsed arguments,
    then [start] it. *)
Inductive outcome : Type :=
| construction_failed (e : exn) (w : World)
| start_failed (e : exn) (st : St)
| ran (st : St).

Definition program (path_exists : string -> bool)
           (listdir : string -> result (list string))
           (a : Args) (evs : list event) (w : World) : outcome :=
  match __init__ path_exists listdir a w with
  | (Raise e, w') => construction_failed e w'
  | (Ok s, w') =>
      match start evs (mkSt s w') with
      | (Raise e, st) => start_failed e st
      | (Ok _, st) => ran st
      end
  end.

(** ** States reachable once [start] has set up: presses of registered
    pins, idle polls and engine reports, in any order. *)
Inductive reachable (st0 : St) : St -> Prop :=
| reach_start st :
    start_setup st0 = (Ok tt, st) -> reachable st0 st
| reach_switch st pin r st' :
    reachable st0 st -> In pin (in_pins (self st)) ->
    switch_vid pin st = (r, st') -> reachable st0 st'
| reach_poll st r st' :
    reachable st0 st -> poll_iteration st = (r, st') -> reachable st0 st'
| reach_engine st e :
    reachable st0 st -> reachable st0 (engine_reports e st).

End Looper.

Import GpioParser Looper Gpio Vlc.

(* ===================================================================== *)
(** * Vocabulary of the properties and of their proofs                    *)
(* ===================================================================== *)

(** The world after a list of GPIO calls. *)
Definition apply_gpio (cs : list Gpio.call) (w : World) : World :=
  mkWorld (foldl (fun lv c => drive c lv) (levels w) cs)
          (gpio_log w ++ cs) (vlc_log w) (host_log w).

(** The GPIO calls of the three loops of the class. *)
Definition switch_calls (pin : Z) (e : Z * option Z) : list Gpio.call :=
  match snd e with
  | Some o => [output o (if Z.eqb (fst e) pin then HIGH else LOW)]
  | None => []
  end.

Definition setup_calls (e : Z * option Z) : list Gpio.call :=
  setup_IN_PUD_UP (fst e)
  :: match snd e with
     | Some o => [setup_OUT o; output o LOW]
     | None => []
     end.

Definition reset_calls (out_pin : option Z) : list Gpio.call :=
  match out_pin with
  | Some o => [output o LOW]
  | None => []
  end.

Definition detect_calls (pin : Z) : list Gpio.call :=
  [add_event_detect_FALLING pin switch_vid_handler _GPIO_BOUNCE_TIME].

(** The branch of [switch_vid] that starts a new session. *)
Definition play_video (lp : bool) (filename : string) : M unit :=
  host (Host.print filename);;
  _kill_process;;
  vlc (media_new filename);;
  let media := mkMedia filename [] in
  on_player "set_media" (set_media media) (do_set_media media);;
  on_player "play" play do_play;;
  (if lp then
     on_player "set_media" (set_media media) (do_set_media media);;
     on_player "get_media" (add_option "input-repeat=-1")
               (do_add_option "input-repeat=-1")
   else mret tt);;
  modify_self (set_active_vid (Some filename)).

(** The state once the loop over the pin pairs of [switch_vid] is done. *)
Definition outputs_written (pin : Z) (st : St) : St :=
  mkSt (self st)
       (apply_gpio (concat (map (switch_calls pin) (gpio_pins (self st))))
                   (world st)).

Definition drive_all (cs : list Gpio.call) (lv : gmap Z level) : gmap Z level :=
  foldl (fun lv c => drive c lv) lv cs.

Definition level_for (in_pin pin : Z) : level :=
  if Z.eqb in_pin pin then HIGH else LOW.

Definition switch_levels (pin : Z) (items : dict (option Z))
           (lv : gmap Z level) : gmap Z level :=
  drive_all (concat (map (switch_calls pin) items)) lv.

Definition apply_host (cs : list Host.call) (w : World) : World :=
  mkWorld (levels w) (gpio_log w) (vlc_log w) (host_log w ++ cs).

(** The calls [start] makes before it looks at [autostart]. *)
Definition terminal_calls (s : VidLooper) : list Host.call :=
  if debug s then [] else [Host.system "clear"; Host.system "tput civis"].

Definition pin_setup_calls (s : VidLooper) : list Gpio.call :=
  setmode_BCM
  :: concat (map setup_calls (gpio_pins s))
  ++ match shutdown_configured s with
     | Some p =>
         [setup_IN_PUD_UP p;
          add_event_detect_FALLING p shutdown_handler _GPIO_BOUNCE_TIME]
     | None => []
     end.

Definition pins_set_up (st : St) : St :=
  mkSt (self st)
       (apply_gpio (pin_setup_calls (self st))
                   (apply_host (terminal_calls (self st)) (world st))).

Definition callbacks_registered (st : St) : St :=
  mkSt (self st)
       (apply_gpio (concat (map detect_calls (in_pins (self st)))) (world st)).

(** The state after the reset of the poll loop. *)
Definition outputs_reset (st : St) : St :=
  mkSt (set_active_vid None (self st))
       (apply_gpio (concat (map reset_calls (values (gpio_pins (self st)))))
                   (world st)).

(** Calls that only ever write LOW leave LOW on every pin they write. *)
Definition writes_only_LOW (c : Gpio.call) : Prop :=
  match c with
  | output _ HIGH => False
  | cleanup => False
  | _ => True
  end.

(** Calls that write no level leave every level alone. *)
Definition writes_nothing (c : Gpio.call) : Prop :=
  match c with
  | output _ _ => False
  | cleanup => False
  | _ => True
  end.

Definition is_high (st : St) (o : Z) : Prop :=
  levels (world st) !! o = Some HIGH.

(** The outputs show that [pin] is the active one: the output of [pin]'s
    pair is HIGH and the output of every other pair is LOW. *)
Definition outputs_reflect (pin : Z) (st : St) : Prop :=
  forall i o, (i, Some o) ∈ gpio_pins (self st) ->
              levels (world st) !! o = Some (level_for i pin).

Definition at_most_one_high (st : St) : Prop :=
  forall o1 o2,
    o1 ∈ out_pins (self st) -> o2 ∈ out_pins (self st) ->
    is_high st o1 -> is_high st o2 -> o1 = o2.

(** An output is HIGH exactly when it is the output mapped to [pin]. *)
Definition lit_iff_mapped (pin : Z) (st : St) : Prop :=
  forall o, o ∈ out_pins (self st) ->
            (is_high st o <-> (pin, Some o) ∈ gpio_pins (self st)).

(** A looper in mid-run, for the examples: two buttons, the first with a
    LED, the first video playing and its LED lit. *)
Definition example_looper : VidLooper :=
  mkVidLooper [(17, Some 27); (22, None)] None ["A.mp4"; "B.mp4"]
    false "hdmi" true false true false None None
    (mkInstance "--aout=hdmi")
    (Some (mkPlayer (Some (mkMedia "A.mp4" ["input-repeat=-1"])) Playing))
    (Some "A.mp4").

Definition example_state : St :=
  mkSt example_looper (mkWorld {[ 27 := HIGH ]} [] [] []).

(** A looper with one video and two buttons. *)
Definition example_spare_pin : St :=
  mkSt (mkVidLooper [(17, Some 27); (22, Some 23)] None ["A.mp4"]
          false "hdmi" true false true false None None
          (mkInstance "--aout=hdmi") (Some (mkPlayer None NothingSpecial))
          None)
       (mkWorld {[ 27 := LOW; 23 := LOW ]} [] [] []).

Definition example_ended : St :=
  mkSt (mkVidLooper [(17, Some 27); (22, None)] None ["A.mp4"; "B.mp4"]
          false "hdmi" true false false false None None
          (mkInstance "--aout=hdmi")
          (Some (mkPlayer (Some (mkMedia "A.mp4" [])) Ended))
          (Some "A.mp4"))
       (mkWorld {[ 27 := HIGH ]} [] [] []).

(** The pin levels are those a press of [pin] leaves: the loop over the
    pin pairs of [switch_vid pin], run on some levels, gives them. *)
Definition outputs_as_left_by (pin : Z) (st : St) : Prop :=
  exists lv0,
    levels (world st) = switch_levels pin (gpio_pins (self st)) lv0.

(** C1, as the claim states it: in a state in which [V] is the active
    video and the outputs reflect it (the output of a pin of [V] HIGH,
    every other output LOW), [switch_vid] on an input pin mapped to [V],
    restart-on-press off, returns and leaves the object and every pin
    level unchanged.  The mapping is taken with distinct input pins and
    distinct output pins. *)
Definition press_active_as_claimed : Prop :=
  forall (st : St) (V : string) (lit pin : Z) (kl k : nat),
    dict_wf (gpio_pins (self st)) ->
    NoDup (out_pins (self st)) ->
    restart_on_press (self st) = false ->
    _active_vid (self st) = Some V ->
    index lit (in_pins (self st)) = Some kl ->
    videos (self st) !! kl = Some V ->
    outputs_reflect lit st ->
    index pin (in_pins (self st)) = Some k ->
    videos (self st) !! k = Some V ->
    exists w',
      switch_vid pin st = (Ok tt, mkSt (self st) w')
      /\ levels w' = levels (world st).

(** Two buttons, each with its LED, for the same video: the looper as
    constructed, and in mid-run once [start] has played the first video. *)
Definition twin_args : Args :=
  mkArgs "hdmi" true false "/home/pi" (Some ["A.mp4"; "A.mp4"])
         (Some [(17, Some 27); (22, Some 23)]) true false None None false.

Definition twin_fresh : St :=
  mkSt (mkVidLooper [(17, Some 27); (22, Some 23)] None ["A.mp4"; "A.mp4"]
          false "hdmi" true false true false None None
          (mkInstance "--aout=hdmi") (Some (mkPlayer None NothingSpecial))
          None)
       (mkWorld ∅ [] [Instance_new "--aout=hdmi"; media_player_new] []).

Definition twin_videos : St :=
  mkSt (mkVidLooper [(17, Some 27); (22, Some 23)] None ["A.mp4"; "A.mp4"]
          false "hdmi" true false true false None None
          (mkInstance "--aout=hdmi")
          (Some (mkPlayer (Some (mkMedia "A.mp4" ["input-repeat=-1"]))
                          Playing))
          (Some "A.mp4"))
       (mkWorld {[ 27 := HIGH; 23 := LOW ]} [] [] []).

(** C2, as the claim states it: in every reachable state at most one
    configured output is HIGH, and once [switch_vid pin] has returned an
    output is HIGH exactly when it is the output mapped to [pin]. *)
Definition one_led_as_claimed : Prop :=
  forall st0 st,
    dict_wf (gpio_pins (self st0)) ->
    reachable st0 st ->
    at_most_one_high st
    /\ forall pin st',
         In pin (in_pins (self st)) ->
         switch_vid pin st = (Ok tt, st') ->
         lit_iff_mapped pin st'.

(** Two buttons sharing one LED, as [--gpio-pins 17:27,22:27] gives. *)
Definition shared_led : St :=
  mkSt (mkVidLooper [(17, Some 27); (22, Some 27)] None ["A.mp4"; "B.mp4"]
          false "hdmi" false false true false None None
          (mkInstance "--aout=hdmi") (Some (mkPlayer None NothingSpecial))
          None)
       (mkWorld ∅ [] [Instance_new "--aout=hdmi"; media_player_new] []).

Definition shared_led_args : Args :=
  mkArgs "hdmi" false false "/home/pi" (Some ["A.mp4"; "B.mp4"])
         (Some [(17, Some 27); (22, Some 27)]) true false None None false.

Definition example_fresh : St :=
  mkSt (mkVidLooper [(17, Some 27); (22, None)] None ["A.mp4"; "B.mp4"]
          false "hdmi" true false true false None None
          (mkInstance "--aout=hdmi") (Some (mkPlayer None NothingSpecial))
          None)
       (mkWorld ∅ [] [Instance_new "--aout=hdmi"; media_player_new] []).

Definition example_shutdown_args : Args :=
  mkArgs "hdmi" false false "/home/pi" (Some ["A.mp4"]) None true false
         (Some 3) None false.

Definition example_splash : St :=
  mkSt (mkVidLooper [(17, Some 27); (22, None)] None ["A.mp4"; "B.mp4"]
          false "hdmi" true false true false (Some "splash.png") None
          (mkInstance "--aout=hdmi") (Some (mkPlayer None NothingSpecial))
          None)
       (mkWorld ∅ [] [Instance_new "--aout=hdmi"; media_player_new] []).

(** The videos a configuration offers: the explicit list when it is not
    empty, otherwise what the scan of the directory finds. *)
Definition candidate_videos (listdir : string -> result (list string))
           (a : Args) : option (list string) :=
  match arg_videos a with
  | Some (v :: vs) => Some (v :: vs)
  | _ =>
      match scan_dir listdir (arg_video_dir a) with
      | Ok found => Some found
      | Raise _ => None
      end
  end.

Definition all_exist (path_exists : string -> bool) (vids : list string)
  : Prop :=
  Forall (fun v => path_exists v = true) vids.

(** C6, as the claim states it: with [N] videos, all existing, and [M]
    input pins, construction succeeds exactly when [N <= M]. *)
Definition enough_pins_as_claimed (path_exists : string -> bool)
           (listdir : string -> result (list string))
           (a : Args) (w : World) (vids : list string) : Prop :=
  candidate_videos listdir a = Some vids ->
  all_exist path_exists vids ->
  (is_ok (fst (__init__ path_exists listdir a w)) = true
   <-> (length vids <= length (pins_of a))%nat).

(** A disk with two videos and a directory holding nothing playable. *)
Definition example_exists (p : string) : bool :=
  String.eqb p "A.mp4" || String.eqb p "B.mp4".

Definition example_listdir (d : string) : result (list string) :=
  Ok ["notes.txt"].

Definition example_args (vids : option (list string)) : Args :=
  mkArgs "hdmi" true false "/home/pi" vids None true false None None false.

(** The same state with another value stored in [no_osd]. *)
Definition osd (b : bool) (st : St) : St :=
  mkSt (set_no_osd b (self st)) (world st).

(** A method ignores [no_osd]: run with another stored value it returns
    the same result and reaches the same state, stored value aside. *)
Definition ignores_no_osd {A} (m : M A) : Prop :=
  forall b st, m (osd b st) = (fst (m st), osd b (snd (m st))).

(** What a run shows once the value stored in [no_osd] is put aside. *)
Definition forget_no_osd (o : outcome) : outcome :=
  match o with
  | construction_failed e w => construction_failed e w
  | start_failed e st => start_failed e (osd false st)
  | ran st => ran (osd false st)
  end.

(* ===================================================================== *)
(** * Vocabulary of the further properties                                *)
(* ===================================================================== *)

(** What one entry of the pin spec denotes when it is well formed: the
    first field is the input pin and the second, when there is one, the
    output pin; further fields are not looked at. *)
Definition entry_pins (entry : string) : option (Z * option Z) :=
  match split ":"%char entry with
  | [] => None
  | f0 :: rest =>
      match int f0 with
      | None => None
      | Some in_pin =>
          match rest with
          | [] => Some (in_pin, None)
          | f1 :: _ =>
              match int f1 with
              | Some o => Some (in_pin, Some o)
              | None => None
              end
          end
      end
  end.

Fixpoint entries_pins (entries : list string)
  : option (list (Z * option Z)) :=
  match entries with
  | [] => Some []
  | entry :: rest =>
      match entry_pins entry, entries_pins rest with
      | Some p, Some ps => Some (p :: ps)
      | _, _ => None
      end
  end.

(** Text on which the model of [int] is exact: ASCII characters only,
    and no longer than the number of digits the interpreter converts. *)
Definition ascii_text (s : string) : bool :=
  forallb (fun c => Nat.ltb (nat_of_ascii c) 128) (list_ascii_of_string s).

Definition int_max_str_digits : nat := 4300.

(** The three errors the parser can raise. *)
Definition parser_error (e : exn) : Prop :=
  e = ValueError "GPIO input pin must be numeric integer"
  \/ e = ValueError "GPIO output pin must be numeric integer"
  \/ exists in_pin : Z,
       e = ValueError ("Duplicate GPIO input pin: " ++ pretty in_pin).

(** What [--gpio-pins 17:27,22] parses to. *)
Definition example_parsed : gpio_dict := [(17, Some 27); (22, None)].

(** Ascending order on file names, by code point. *)
Definition name_le (x y : string) : Prop := String.leb x y = true.

(** The player as [media_player_new] returns it. *)
Definition fresh_player : MediaPlayer := mkPlayer None NothingSpecial.

(** The engine calls [switch_vid] makes to start a session, in order. *)
Definition session_calls (lp : bool) (filename : string) : list Vlc.call :=
  ([stop; media_new filename; set_media (mkMedia filename []); play]
   ++ (if lp then [set_media (mkMedia filename []);
                   add_option "input-repeat=-1"]
       else []))%list.

(** The player once the session has started. *)
Definition session_player (lp : bool) (filename : string) : MediaPlayer :=
  mkPlayer (Some (mkMedia filename (if lp then ["input-repeat=-1"] else [])))
           Playing.

(** The object and the world once a session has started. *)
Definition session_started (lp : bool) (filename : string) (st : St) : St :=
  mkSt (set_active_vid (Some filename)
          (set_player (Some (session_player lp filename)) (self st)))
       (mkWorld (levels (world st)) (gpio_log (world st))
          (vlc_log (world st) ++ session_calls lp filename)
          (host_log (world st) ++ [Host.print filename])).

(** The active-video record agrees with the player: there is a player,
    and a recorded video is one of the list and is the media the player
    holds. *)
Definition session_consistent (s : VidLooper) : Prop :=
  exists p,
    _player s = Some p
    /\ forall v, _active_vid s = Some v ->
                 v ∈ videos s /\ mrl <$> media p = Some v.

(** The names the class body binds (lines 48-59 and the methods): an
    instance has them whatever [__init__] did. *)
Definition class_attributes : list string :=
  ["_GPIO_BOUNCE_TIME"; "_VIDEO_EXTS"; "_GPIO_PIN_DEFAULT"; "_mutex";
   "_active_vid"; "_player"; "__init__"; "_kill_process"; "switch_vid";
   "in_pins"; "start"; "__del__"].

(** The attributes [__init__] assigns, in the order of its assignments
    (lines 66-95). *)
Definition instance_attributes : list string :=
  ["gpio_pins"; "shutdown_pin"; "videos"; "debug"; "audio"; "autostart";
   "restart_on_press"; "loop"; "no_osd"; "splash"; "_splashproc";
   "_instance"; "_player"].

(** The attributes assigned when [__init__] raises.  Its raises (lines
    73, 79 and 82) all come before line 85; [os.listdir] raising inside
    the comprehension of line 75 leaves [videos] unassigned as well. *)
Definition attributes_after_failure
           (listdir : string -> result (list string)) (a : Args)
  : list string :=
  (["gpio_pins"; "shutdown_pin"]
   ++ match arg_videos a with
      | Some (_ :: _) => ["videos"]
      | _ => match listdir (arg_video_dir a) with
             | Ok _ => ["videos"]
             | Raise _ => []
             end
      end)%list.

(** [self.name] on an object on which [__init__] has assigned the
    attributes [assigned]: the instance, then the class; a miss raises
    [AttributeError]. *)
Definition getattr (assigned : list string) (name : string) : result unit :=
  if existsb (String.eqb name) assigned
     || existsb (String.eqb name) class_attributes
  then Ok tt
  else Raise (AttributeError
                ("'VidLooper' object has no attribute '" ++ name ++ "'")).

(** [__del__] as the interpreter runs it on any object of the class,
    fully built or not: the body of [__del__], each attribute read going
    through [getattr]. *)
Definition finalize (assigned : list string) : M unit :=
  of_result (getattr assigned "debug");;
  s ← get_self;
  (if debug s then mret tt else host (Host.system "tput cnorm"));;
  gpio cleanup;;
  of_result (getattr assigned "_player");;
  _kill_process;;
  of_result (getattr assigned "_splashproc");;
  match _splashproc s with
  | Some argv => host (Host.killpg_SIGKILL argv)
  | None => mret tt
  end.

(** A failed construction: an explicit list naming a missing file. *)
Definition example_missing_args : Args :=
  mkArgs "hdmi" true false "/home/pi" (Some ["A.mp4"; "C.mp4"]) None true
         false None None false.

(** The calls teardown adds to the logs of the engine and of the host. *)
Definition teardown_vlc_calls (s : VidLooper) : list Vlc.call :=
  match _player s with Some _ => [stop] | None => [] end.

Definition teardown_host_calls (s : VidLooper) : list Host.call :=
  ((if debug s then [] else [Host.system "tput cnorm"])
   ++ match _splashproc s with
      | Some argv => [Host.killpg_SIGKILL argv]
      | None => []
      end)%list.

(** Host calls that start, stop or signal no process. *)
Definition harmless (c : Host.call) : Prop :=
  match c with
  | Host.system _ | Host.print _ | Host.traceback _ => True
  | _ => False
  end.

(** No splash process is recorded and no process call has been made. *)
Definition quiet (st : St) : Prop :=
  _splashproc (self st) = None /\ Forall harmless (host_log (world st)).

Definition keeps_quiet {A} (m : M A) : Prop :=
  forall st, quiet st -> quiet (snd (m st)).

Definition outcome_quiet (o : outcome) : Prop :=
  match o with
  | construction_failed _ w => Forall harmless (host_log w)
  | start_failed _ st => quiet st
  | ran st => quiet st
  end.

(** A call that registers the shutdown callback. *)
Definition is_shutdown_detect (c : Gpio.call) : Prop :=
  match c with
  | add_event_detect_FALLING _ shutdown_handler _ => True
  | _ => False
  end.

(** A looper whose shutdown pin is given as 0. *)
Definition example_shutdown_zero : St :=
  mkSt (mkVidLooper [(17, Some 27); (22, None)] (Some 0) ["A.mp4"; "B.mp4"]
          false "hdmi" true false true false None None
          (mkInstance "--aout=hdmi") (Some (mkPlayer None NothingSpecial))
          None)
       (mkWorld ∅ [] [Instance_new "--aout=hdmi"; media_player_new] []).

(* ===================================================================== *)
(** * [main]: the countdown before the looper is constructed              *)
(* ===================================================================== *)
Module Main.

(** What the countdown does to the outside: writes to standard output,
    flushes, sleeps. *)
Inductive call : Type :=
| stdout_write (s : string)
| stdout_flush
| sleep (secs : Z).

Definition carriage_return : string := String (ascii_of_nat 13) EmptyString.

(** ['\rrpi-vidlooper starting in {} seconds (Ctrl-C to abort)...'] *)
Definition countdown_message (countdown : Z) : string :=
  carriage_return ++ "rpi-vidlooper starting in " ++ pretty countdown
  ++ " seconds (Ctrl-C to abort)...".

(** The body of the [while] loop. *)
Definition countdown_body (countdown : Z) : list call :=
  [stdout_write (countdown_message countdown); stdout_flush; sleep 1].

(** [while countdown > 0: ...; countdown -= 1], run for at most [fuel]
    iterations; [None] when the fuel runs out first. *)
Fixpoint countdown_loop (fuel : nat) (countdown : Z) (out : list call)
  : option (Z * list call) :=
  if Z.gtb countdown 0 then
    match fuel with
    | O => None
    | S fuel' =>
        countdown_loop fuel' (countdown - 1)
                       (out ++ countdown_body countdown)
    end
  else Some (countdown, out).

End Main.

(** The numbers a countdown from [n] shows: [n], [n - 1], ..., 1. *)
Definition countdown_numbers (n : Z) : list Z :=
  map Z.of_nat (rev (seq 1 (Z.to_nat n))).

(** The seconds slept in a list of calls. *)
Definition seconds_slept (cs : list Main.call) : Z :=
  fold_right (fun c acc => match c with Main.sleep s => s + acc | _ => acc end)
             0 cs.

(** What the GPIO library knows of each pin: the direction it was last
    set up with.  [cleanup] forgets every pin. *)
Inductive direction : Type := IN | OUT.

Definition configure (c : Gpio.call) (dirs : gmap Z direction)
  : gmap Z direction :=
  match c with
  | setup_IN_PUD_UP p => <[p := IN]> dirs
  | setup_OUT p => <[p := OUT]> dirs
  | cleanup => ∅
  | _ => dirs
  end.

(** The library accepts a write on a pin set up as an output, and an edge
    detection on a pin set up as an input. *)
Definition permitted (c : Gpio.call) (dirs : gmap Z direction) : Prop :=
  match c with
  | output p _ => dirs !! p = Some OUT
  | add_event_detect_FALLING p _ _ => dirs !! p = Some IN
  | _ => True
  end.

Fixpoint well_used (dirs : gmap Z direction) (log : list Gpio.call) : Prop :=
  match log with
  | [] => True
  | c :: rest => permitted c dirs /\ well_used (configure c dirs) rest
  end.

Definition dirs_after (dirs : gmap Z direction) (log : list Gpio.call)
  : gmap Z direction :=
  foldl (fun d c => configure c d) dirs log.

(** The calls made once the pins are set up: writes to the output pins
    and edge detections on the input pins. *)
Definition routine (s : VidLooper) (c : Gpio.call) : Prop :=
  match c with
  | output o _ => o ∈ out_pins s
  | add_event_detect_FALLING p _ _ => p ∈ in_pins s
  | _ => False
  end.

(** The pins are set up as the mapping has them and have been used as
    the library permits. *)
Definition pins_ready (st : St) : Prop :=
  well_used ∅ (gpio_log (world st))
  /\ (forall o, o ∈ out_pins (self st) ->
                dirs_after ∅ (gpio_log (world st)) !! o = Some OUT)
  /\ (forall i, i ∈ in_pins (self st) ->
                dirs_after ∅ (gpio_log (world st)) !! i = Some IN).

(** A step that keeps the mapping and only adds routine calls. *)
Definition routine_step (st st' : St) : Prop :=
  gpio_pins (self st') = gpio_pins (self st)
  /\ exists cs,
       gpio_log (world st') = (gpio_log (world st) ++ cs)%list
       /\ Forall (routine (self st)) cs.



(* ===================================================================== *)
(** * Facts about the runtime model                                       *)
(* ===================================================================== *)

(** In a list without repetition, [index] finds every position. *)
Lemma index_lookup_NoDup l k x :
  NoDup l -> l !! k = Some x -> index x l = Some k.
Proof.
  revert k. induction l as [|y l IH]; intros k Hnd Hk; [done|].
  apply NoDup_cons in Hnd as [Hy Hnd].
  destruct k as [|k]; simpl in *.
  - injection Hk as ->. by rewrite Z.eqb_refl.
  - destruct (Z.eqb_spec y x) as [->|Hne].
    + exfalso. apply Hy. eapply list_elem_of_lookup_2. exact Hk.
    + by rewrite (IH k Hnd Hk).
Qed.

(** The format check of the parser can never fire: no length is both
    zero and above two. *)
Lemma invalid_format_never (pair_split : list string) :
  invalid_format pair_split = false.
Proof.
  unfold invalid_format. destruct pair_split as [|? [|? [|? ?]]]; reflexivity.
Qed.

(* ===================================================================== *)
(** * Facts about the methods                                             *)
(* ===================================================================== *)

Lemma apply_gpio_nil w : apply_gpio [] w = w.
Proof. destruct w. unfold apply_gpio. simpl. by rewrite app_nil_r. Qed.

Lemma apply_gpio_app cs1 cs2 w :
  apply_gpio cs2 (apply_gpio cs1 w) = apply_gpio (cs1 ++ cs2) w.
Proof. unfold apply_gpio. simpl. by rewrite foldl_app, app_assoc. Qed.

Lemma gpio_apply c st :
  gpio c st = (Ok tt, mkSt (self st) (apply_gpio [c] (world st))).
Proof. reflexivity. Qed.

Ltac unfold_m :=
  unfold mbind, M_bind, mret, M_ret, raise, get_self, modify_self,
    of_option, of_result in *.

(** A loop whose body only makes GPIO calls makes them in order and
    returns. *)
Lemma for_each_gpio {A} (f : A -> list Gpio.call) (body : A -> M unit) l :
  (forall x st,
      body x st = (Ok tt, mkSt (self st) (apply_gpio (f x) (world st)))) ->
  forall st,
    for_each l body st
    = (Ok tt, mkSt (self st) (apply_gpio (concat (map f l)) (world st))).
Proof.
  intros Hbody. induction l as [|x l IH]; intros st; simpl.
  - unfold_m. rewrite apply_gpio_nil. by destruct st.
  - unfold_m. rewrite Hbody, IH. simpl. by rewrite apply_gpio_app.
Qed.

(** [switch_vid], one decision at a time. *)
Lemma switch_vid_eq pin st :
  switch_vid pin st =
  match index pin (in_pins (self st)) with
  | None =>
      (Raise (ValueError "tuple.index(x): x not in tuple"),
       outputs_written pin st)
  | Some k =>
      match videos (self st) !! k with
      | None =>
          (Raise (IndexError "list index out of range"),
           outputs_written pin st)
      | Some filename =>
          if negb (bool_decide (Some filename = _active_vid (self st)))
             || restart_on_press (self st)
          then play_video (loop (self st)) filename (outputs_written pin st)
          else (Ok tt, outputs_written pin st)
      end
  end.
Proof.
  unfold switch_vid. unfold_m.
  rewrite (for_each_gpio (switch_calls pin)).
  - fold (outputs_written pin st).
    destruct (index pin (in_pins (self st))) as [k|]; [|reflexivity].
    unfold_m. simpl.
    destruct (videos (self st) !! k) as [filename|]; [|reflexivity].
    unfold_m. simpl.
    destruct (negb _ || _); reflexivity.
  - intros [i [o|]] st'; unfold switch_calls; simpl.
    + reflexivity.
    + rewrite apply_gpio_nil. by destruct st'.
Qed.

(** Starting a session touches neither the pins nor the configuration,
    and cannot fail on an index. *)
Lemma play_video_levels lp f st :
  levels (world (snd (play_video lp f st))) = levels (world st).
Proof. destruct st as [[] w]. destruct _player0, lp; reflexivity. Qed.

Lemma play_video_gpio_pins lp f st :
  gpio_pins (self (snd (play_video lp f st))) = gpio_pins (self st).
Proof. destruct st as [[] w]. destruct _player0, lp; reflexivity. Qed.

Lemma play_video_not_IndexError lp f st m :
  fst (play_video lp f st) <> Raise (IndexError m).
Proof. destruct st as [[] w]. destruct _player0, lp; discriminate. Qed.

Lemma switch_vid_levels pin st :
  levels (world (snd (switch_vid pin st)))
  = levels (world (outputs_written pin st)).
Proof.
  rewrite switch_vid_eq.
  destruct (index _ _); [|reflexivity].
  destruct (_ !! _); [|reflexivity].
  destruct (_ || _); [|reflexivity].
  by rewrite play_video_levels.
Qed.

Lemma switch_vid_gpio_pins pin st :
  gpio_pins (self (snd (switch_vid pin st))) = gpio_pins (self st).
Proof.
  rewrite switch_vid_eq.
  destruct (index _ _); [|reflexivity].
  destruct (_ !! _); [|reflexivity].
  destruct (_ || _); [|reflexivity].
  by rewrite play_video_gpio_pins.
Qed.

(** ** The levels the loops leave behind *)

Lemma switch_levels_cons pin i oo items lv :
  switch_levels pin ((i, oo) :: items) lv
  = switch_levels pin items
      (match oo with
       | Some o => <[o := level_for i pin]> lv
       | None => lv
       end).
Proof.
  unfold switch_levels, drive_all. simpl. rewrite foldl_app.
  by destruct oo.
Qed.

Lemma outs_cons i oo (items : dict (option Z)) :
  omap id (values ((i, oo) :: items))
  = match oo with
    | Some o => o :: omap id (values items)
    | None => omap id (values items)
    end.
Proof. by destruct oo. Qed.

Lemma elem_of_outs o (items : dict (option Z)) :
  o ∈ omap id (values items) <-> exists i, (i, Some o) ∈ items.
Proof.
  unfold values. rewrite list_elem_of_omap. split.
  - intros (x & Hx & Hid). simpl in Hid. subst x.
    apply list_elem_of_fmap in Hx as ([i oo] & Heq & Hin).
    simpl in Heq. subst oo. eauto.
  - intros (i & Hin). exists (Some o). split; [|done].
    apply list_elem_of_fmap. exists (i, Some o). eauto.
Qed.

(** A pin that is no pair's output keeps its level. *)
Lemma switch_levels_other pin items lv o :
  o ∉ omap id (values items) -> switch_levels pin items lv !! o = lv !! o.
Proof.
  revert lv. induction items as [|[i oo] items IH]; intros lv Ho; [done|].
  rewrite switch_levels_cons. rewrite outs_cons in Ho.
  destruct oo as [o'|].
  - apply not_elem_of_cons in Ho as [Hne Ho].
    rewrite IH by done. by rewrite lookup_insert_ne.
  - by apply IH.
Qed.

(** When every output already shows what the loop writes, the loop
    changes nothing. *)
Lemma switch_levels_id pin items lv :
  (forall i o, (i, Some o) ∈ items -> lv !! o = Some (level_for i pin)) ->
  switch_levels pin items lv = lv.
Proof.
  induction items as [|[i oo] items IH]; intros H; [done|].
  rewrite switch_levels_cons.
  assert (forall i o, (i, Some o) ∈ items -> lv !! o = Some (level_for i pin))
    as Htl by (intros; apply H; by right).
  destruct oo as [o|]; [|by apply IH].
  rewrite insert_id by (apply H; left). by apply IH.
Qed.

(** An output left HIGH is the output of a pair whose input is the
    pressed pin. *)
Lemma switch_levels_HIGH pin items lv o :
  o ∈ omap id (values items) ->
  switch_levels pin items lv !! o = Some HIGH ->
  (pin, Some o) ∈ items.
Proof.
  revert lv. induction items as [|[i oo] items IH]; intros lv Ho Hhigh.
  - by apply elem_of_nil in Ho.
  - rewrite switch_levels_cons in Hhigh.
    destruct (decide (o ∈ omap id (values items))) as [Hin|Hnin].
    + right. eapply IH; eauto.
    + rewrite outs_cons in Ho. destruct oo as [o'|]; [|done].
      apply elem_of_cons in Ho as [->|Ho]; [|done].
      rewrite switch_levels_other, lookup_insert_eq in Hhigh by done.
      injection Hhigh as Hlvl. unfold level_for in Hlvl.
      destruct (Z.eqb_spec i pin) as [->|]; [left|done].
Qed.

(** With pairwise distinct outputs, the pressed pin's output is left
    HIGH. *)
Lemma switch_levels_mapped pin items lv o :
  NoDup (omap id (values items)) ->
  (pin, Some o) ∈ items ->
  switch_levels pin items lv !! o = Some HIGH.
Proof.
  revert lv. induction items as [|[i oo] items IH]; intros lv Hnd Hin.
  - by apply elem_of_nil in Hin.
  - rewrite switch_levels_cons. rewrite outs_cons in Hnd.
    apply elem_of_cons in Hin as [[= <- <-]|Hin].
    + apply NoDup_cons in Hnd as [Hno _].
      rewrite switch_levels_other, lookup_insert_eq by done.
      unfold level_for. by rewrite Z.eqb_refl.
    + destruct oo as [o'|]; [apply NoDup_cons in Hnd as [_ Hnd]|];
        by apply IH.
Qed.

(** The loop over the pin pairs, run on the levels it has left, leaves
    them as they are. *)
Lemma switch_levels_snoc pin i oo items lv :
  switch_levels pin (items ++ [(i, oo)])%list lv
  = match oo with
    | Some o => <[o := level_for i pin]> (switch_levels pin items lv)
    | None => switch_levels pin items lv
    end.
Proof.
  revert lv. induction items as [|[i' oo'] items IH]; intros lv.
  - rewrite app_nil_l, switch_levels_cons. by destruct oo.
  - rewrite <- app_comm_cons, !switch_levels_cons. apply IH.
Qed.

Lemma switch_levels_insert pin items (lv : gmap Z level) o l :
  <[o := l]> (switch_levels pin items (<[o := l]> lv))
  = <[o := l]> (switch_levels pin items lv).
Proof.
  induction items as [|[i oo] items IH] using rev_ind.
  - unfold switch_levels, drive_all. simpl. apply insert_insert_eq.
  - rewrite !switch_levels_snoc. destruct oo as [o'|]; [|exact IH].
    destruct (decide (o = o')) as [->|Hne].
    + by rewrite !insert_insert_eq.
    + rewrite (insert_insert_ne _ o o') by done.
      rewrite IH. by rewrite (insert_insert_ne _ o' o) by done.
Qed.

Lemma switch_levels_idem pin items lv :
  switch_levels pin items (switch_levels pin items lv)
  = switch_levels pin items lv.
Proof.
  revert lv. induction items as [|[i oo] items IH] using rev_ind; intros lv.
  - done.
  - rewrite !switch_levels_snoc. destruct oo as [o|]; [|apply IH].
    by rewrite switch_levels_insert, IH.
Qed.

(** [index] returns a position that holds the element. *)
Lemma index_Some_lookup x l k : index x l = Some k -> l !! k = Some x.
Proof.
  revert k. induction l as [|y l IH]; intros k; simpl; [done|].
  destruct (Z.eqb_spec y x) as [->|_].
  - by intros [= <-].
  - destruct (index x l) as [j|]; [|done]. intros [= <-]. by apply IH.
Qed.

(** In a dict, a key has one value. *)
Lemma dict_functional {V} (d : dict V) k v1 v2 :
  dict_wf d -> (k, v1) ∈ d -> (k, v2) ∈ d -> v1 = v2.
Proof.
  unfold dict_wf, keys. induction d as [|[k' v'] d IH]; intros Hnd H1 H2.
  - by apply elem_of_nil in H1.
  - simpl in Hnd. apply NoDup_cons in Hnd as [Hk Hnd].
    assert (forall v, (k', v) ∈ d -> False) as Hfresh.
    { intros v Hv. apply Hk. apply list_elem_of_fmap. exists (k', v). eauto. }
    apply elem_of_cons in H1 as [E1|H1];
      apply elem_of_cons in H2 as [E2|H2]; simplify_eq; eauto.
    + by destruct (Hfresh v2).
    + by destruct (Hfresh v1).
Qed.

(** ** [start] and the poll loop, one decision at a time *)

Lemma bind_Ok {A B} (m : M A) (k : A -> M B) st a st' :
  m st = (Ok a, st') -> (m ≫= k) st = k a st'.
Proof. intros H. unfold mbind, M_bind. by rewrite H. Qed.

Lemma seq_gpio (c1 c2 : Gpio.call) st :
  (gpio c1;; gpio c2) st
  = (Ok tt, mkSt (self st) (apply_gpio [c1; c2] (world st))).
Proof.
  erewrite bind_Ok by apply gpio_apply.
  rewrite gpio_apply. simpl. by rewrite apply_gpio_app.
Qed.

Lemma setup_loop_eq items st :
  for_each items (fun '(in_pin, out_pin) =>
    gpio (setup_IN_PUD_UP in_pin);;
    match out_pin with
    | Some o => gpio (setup_OUT o);; gpio (output o LOW)
    | None => mret tt
    end) st
  = (Ok tt, mkSt (self st)
              (apply_gpio (concat (map setup_calls items)) (world st))).
Proof.
  apply (for_each_gpio setup_calls). intros [i [o|]] st2.
  - erewrite bind_Ok by apply gpio_apply.
    rewrite seq_gpio. simpl. by rewrite apply_gpio_app.
  - erewrite bind_Ok by apply gpio_apply. reflexivity.
Qed.

Lemma detect_loop_eq pins st :
  for_each pins (fun pin =>
    gpio (add_event_detect_FALLING pin switch_vid_handler _GPIO_BOUNCE_TIME))
    st
  = (Ok tt, mkSt (self st)
              (apply_gpio (concat (map detect_calls pins)) (world st))).
Proof. apply (for_each_gpio detect_calls). reflexivity. Qed.

Lemma terminal_step_eq (s : VidLooper) st :
  (if debug s then mret tt
   else host (Host.system "clear");; host (Host.system "tput civis")) st
  = (Ok tt, mkSt (self st) (apply_host (terminal_calls s) (world st))).
Proof.
  unfold terminal_calls, apply_host. destruct (debug s).
  - destruct st as [s' []]. simpl. unfold_m. by rewrite app_nil_r.
  - unfold_m. unfold host. simpl. by rewrite <- app_assoc.
Qed.

Lemma shutdown_step_eq (s : VidLooper) st :
  (match shutdown_configured s with
   | Some p =>
       gpio (setup_IN_PUD_UP p);;
       gpio (add_event_detect_FALLING p shutdown_handler _GPIO_BOUNCE_TIME)
   | None => mret tt
   end) st
  = (Ok tt,
     mkSt (self st)
       (apply_gpio
          (match shutdown_configured s with
           | Some p =>
               [setup_IN_PUD_UP p;
                add_event_detect_FALLING p shutdown_handler _GPIO_BOUNCE_TIME]
           | None => []
           end) (world st))).
Proof.
  destruct (shutdown_configured s) as [p|].
  - apply seq_gpio.
  - rewrite apply_gpio_nil. by destruct st.
Qed.

Lemma start_setup_eq st :
  start_setup st =
  if autostart (self st) then
    match splash (self st) with
    | Some image =>
        (Raise (NameError "name 'Popen' is not defined"), pins_set_up st)
    | None =>
        match head (in_pins (self st)) with
        | None =>
            (Raise (IndexError "tuple index out of range"), pins_set_up st)
        | Some first =>
            match switch_vid first (pins_set_up st) with
            | (Ok _, st') =>
                (Ok tt,
                 mkSt (self st')
                      (apply_gpio
                         (concat (map detect_calls (in_pins (self st))))
                         (world st')))
            | (Raise e, st') => (Raise e, st')
            end
        end
    end
  else (Ok tt, callbacks_registered (pins_set_up st)).
Proof.
  unfold start_setup.
  rewrite (bind_Ok get_self _ st (self st) st) by reflexivity.
  erewrite bind_Ok by apply terminal_step_eq.
  erewrite bind_Ok by apply gpio_apply.
  erewrite bind_Ok by apply setup_loop_eq.
  erewrite bind_Ok by apply shutdown_step_eq.
  simpl. rewrite !apply_gpio_app.
  change (mkSt (self st) _) with (pins_set_up st).
  destruct (autostart (self st)).
  - destruct (splash (self st)) as [image|]; [reflexivity|].
    destruct (head (in_pins (self st))) as [first|]; [|reflexivity].
    unfold_m. simpl.
    destruct (switch_vid first (pins_set_up st)) as [[[]|e] st'].
    + apply detect_loop_eq.
    + reflexivity.
  - erewrite bind_Ok by reflexivity. apply detect_loop_eq.
Qed.

Lemma poll_iteration_eq st :
  poll_iteration st =
  (Ok tt,
   if loop (self st) then st
   else match _player (self st) with
        | Some p => if bool_decide (state p = Ended) then outputs_reset st
                    else st
        | None => st
        end).
Proof.
  unfold poll_iteration.
  rewrite (bind_Ok get_self _ st (self st) st) by reflexivity.
  destruct (loop (self st)); [reflexivity|].
  destruct (_player (self st)) as [p|]; [|reflexivity].
  destruct (bool_decide (state p = Ended)); [|reflexivity].
  erewrite bind_Ok.
  2:{ apply (for_each_gpio reset_calls). intros [o|] st'; simpl.
      - reflexivity.
      - rewrite apply_gpio_nil. by destruct st'. }
  reflexivity.
Qed.

Lemma drive_all_LOW cs lv o :
  Forall writes_only_LOW cs ->
  output o LOW ∈ cs ->
  drive_all cs lv !! o = Some LOW.
Proof.
  unfold drive_all. induction cs as [|c cs IH] using rev_ind; intros Hall Hin.
  - by apply elem_of_nil in Hin.
  - apply Forall_app in Hall as [Hall Hc]. apply Forall_cons in Hc as [Hc _].
    rewrite foldl_snoc.
    apply elem_of_app in Hin as [Hin|Hin].
    + specialize (IH Hall Hin).
      destruct c as [| | |p [|]| |]; simpl in Hc |- *; try done.
      destruct (decide (p = o)) as [->|Hne].
      * apply lookup_insert_eq.
      * by rewrite lookup_insert_ne.
    + apply list_elem_of_singleton in Hin as <-. simpl.
      apply lookup_insert_eq.
Qed.

Lemma drive_all_nothing cs lv :
  Forall writes_nothing cs -> drive_all cs lv = lv.
Proof.
  unfold drive_all. revert lv.
  induction cs as [|c cs IH]; intros lv Hall; [done|].
  apply Forall_cons in Hall as [Hc Hall]. simpl.
  rewrite IH by done. by destruct c.
Qed.

Lemma detect_calls_nothing pins :
  Forall writes_nothing (concat (map detect_calls pins)).
Proof. induction pins; simpl; constructor; done. Qed.

Lemma reset_calls_LOW vals :
  Forall writes_only_LOW (concat (map reset_calls vals)).
Proof.
  induction vals as [|[o|] vals IH]; simpl; [constructor| |done].
  by constructor.
Qed.

Lemma reset_calls_all vals o :
  o ∈ omap id vals -> output o LOW ∈ concat (map reset_calls vals).
Proof.
  induction vals as [|[o'|] vals IH]; simpl; intros Hin.
  - by apply elem_of_nil in Hin.
  - apply elem_of_cons in Hin as [->|Hin]; [left|right; auto].
  - auto.
Qed.

Lemma pin_setup_calls_LOW s : Forall writes_only_LOW (pin_setup_calls s).
Proof.
  unfold pin_setup_calls. constructor; [done|].
  apply Forall_app. split.
  - induction (gpio_pins s) as [|[i [o|]] items IH]; simpl.
    + constructor.
    + repeat (constructor; [done|]). exact IH.
    + constructor; [done|]. exact IH.
  - destruct (shutdown_configured s); repeat constructor.
Qed.

Lemma pin_setup_calls_all s o :
  o ∈ out_pins s -> output o LOW ∈ pin_setup_calls s.
Proof.
  unfold out_pins, pin_setup_calls. intros Hin.
  right. apply elem_of_app. left.
  induction (gpio_pins s) as [|[i [o'|]] items IH]; simpl in *.
  - by apply elem_of_nil in Hin.
  - apply elem_of_cons in Hin as [->|Hin].
    + right. right. left.
    + do 3 right. auto.
  - right. auto.
Qed.

(* ===================================================================== *)
(** * The claims                                                          *)
(* ===================================================================== *)

(** The scenario of the specification: pins [{17: 27, 22: None}], videos
    [A.mp4, B.mp4], no autostart.  Pressing 17 plays A and lights pin 27;
    pressing 22 plays B and dims pin 27; pressing 17 again plays A and
    lights pin 27 again. *)
Example scenario_two_buttons :
  let st0 :=
    mkSt (mkVidLooper [(17, Some 27); (22, None)] None ["A.mp4"; "B.mp4"]
            false "hdmi" false false true false None None
            (mkInstance "--aout=hdmi") (Some (mkPlayer None NothingSpecial))
            None) initial_world in
  let after evs := snd (start evs st0) in
  let shows evs :=
    (_active_vid (self (after evs)), levels (world (after evs)) !! 27) in
  shows [] = (None, Some LOW)
  /\ shows [Press 17] = (Some "A.mp4", Some HIGH)
  /\ shows [Press 17; Press 22] = (Some "B.mp4", Some LOW)
  /\ shows [Press 17; Press 22; Press 22] = (Some "B.mp4", Some LOW)
  /\ shows [Press 17; Press 22; Press 17] = (Some "A.mp4", Some HIGH).
Proof. repeat split; reflexivity. Qed.

(** C1, counterexample.  The video list may name a video twice, and two
    buttons are then mapped to it.  With pins [17:27,22:23] and videos
    [A.mp4, A.mp4], [start] plays A from pin 17: A is active, pin 27 is
    HIGH and pin 23 is LOW.  A press of pin 22, which is mapped to A as
    well, takes the no-op branch -- and before that writes pin 27 LOW and
    pin 23 HIGH. *)
Lemma C1_two_buttons_one_video_counterexample : ~ press_active_as_claimed.
Proof.
  intros Hclaim.
  assert (GpioParser.call "17:27,22:23" = Ok (gpio_pins (self twin_fresh)))
    as _ by reflexivity.
  assert (__init__ (fun _ => true) (fun _ => Ok []) twin_args initial_world
          = (Ok (self twin_fresh), world twin_fresh)) as _ by reflexivity.
  assert (fst (start_setup twin_fresh) = Ok tt
          /\ self (snd (start_setup twin_fresh)) = self twin_videos
          /\ levels (world (snd (start_setup twin_fresh)))
             = levels (world twin_videos)) as _
      by (repeat split; vm_compute; reflexivity).
  destruct (Hclaim twin_videos "A.mp4" 17 22 0%nat 1%nat)
    as (w' & Hswitch & Hlevels); try reflexivity.
  - unfold dict_wf. simpl. apply NoDup_cons. split.
    + intros Hin. apply list_elem_of_singleton in Hin. discriminate Hin.
    + apply NoDup_singleton.
  - simpl. apply NoDup_cons. split.
    + intros Hin. apply list_elem_of_singleton in Hin. discriminate Hin.
    + apply NoDup_singleton.
  - intros i o Hin.
    apply elem_of_cons in Hin as [Heq|Hin]; [by injection Heq as -> ->|].
    apply list_elem_of_singleton in Hin. by injection Hin as -> ->.
  - assert (levels (world (snd (switch_vid 22 twin_videos))) !! 27
            = Some LOW) as Hlow by (vm_compute; reflexivity).
    rewrite Hswitch in Hlow. simpl in Hlow. rewrite Hlevels in Hlow.
    vm_compute in Hlow. discriminate Hlow.
Qed.

(** C1, amended.  In a state where video [V] is the active video,
    [switch_vid] on an input pin mapped to [V] with restart-on-press
    disabled returns normally, leaves the whole object -- so the
    active-video record and the playback session -- unchanged and issues
    no command to the playback engine or the host.  It still runs the
    loop over the pin pairs, and leaves every pin level as it was exactly
    when the levels are those a press of this pin leaves.  That is so
    when the outputs reflect the pressed pin (its pair's output HIGH,
    every other pair's output LOW); when no video is listed twice and the
    outputs reflect the pin of [V], which is then the pressed pin; and
    when the pressed pin is the pin that was pressed last. *)
Theorem C1_press_active_is_noop (pin : Z) (k : nat) (V : string) (st : St) :
  restart_on_press (self st) = false ->
  index pin (in_pins (self st)) = Some k ->
  videos (self st) !! k = Some V ->
  _active_vid (self st) = Some V ->
  exists w',
    switch_vid pin st = (Ok tt, mkSt (self st) w')
    /\ vlc_log w' = vlc_log (world st)
    /\ host_log w' = host_log (world st)
    /\ (levels w' = levels (world st) <-> outputs_as_left_by pin st)
    /\ (outputs_reflect pin st -> levels w' = levels (world st))
    /\ (NoDup (videos (self st)) ->
        forall lit kl,
          index lit (in_pins (self st)) = Some kl ->
          videos (self st) !! kl = Some V ->
          outputs_reflect lit st ->
          levels w' = levels (world st))
    /\ (forall st0,
          gpio_pins (self st0) = gpio_pins (self st) ->
          levels (world st) = levels (world (snd (switch_vid pin st0))) ->
          levels w' = levels (world st)).
Proof.
  intros Hrestart Hidx Hvid Hactive.
  rewrite switch_vid_eq, Hidx, Hvid, Hactive, Hrestart.
  rewrite bool_decide_eq_true_2 by reflexivity. simpl.
  eexists. split; [reflexivity|]. simpl.
  split; [reflexivity|]. split; [reflexivity|].
  fold (switch_levels pin (gpio_pins (self st)) (levels (world st))).
  split; [|split; [|split]].
  - split.
    + intros Heq. exists (levels (world st)). by symmetry.
    + intros [lv0 ->]. apply switch_levels_idem.
  - intros Hreflect. apply switch_levels_id. exact Hreflect.
  - intros Hnd lit kl Hlit Hkl Hreflect.
    assert (kl = k) as -> by (by apply (NoDup_lookup _ kl k V Hnd)).
    apply index_Some_lookup in Hidx, Hlit.
    assert (lit = pin) as -> by congruence.
    apply switch_levels_id. exact Hreflect.
  - intros st0 Hpins ->.
    rewrite switch_vid_levels.
    change (levels (world (outputs_written pin st0)))
      with (switch_levels pin (gpio_pins (self st0)) (levels (world st0))).
    rewrite Hpins.
    apply switch_levels_idem.
Qed.

Lemma C1_press_active_is_noop_witness :
  exists w',
    switch_vid 17 example_state = (Ok tt, mkSt example_looper w')
    /\ levels w' = levels (world example_state)
    /\ vlc_log w' = vlc_log (world example_state)
    /\ host_log w' = host_log (world example_state).
Proof.
  destruct (C1_press_active_is_noop 17 0%nat "A.mp4" example_state)
    as (w' & Hswitch & Hvlc & Hhost & _ & Hreflect & _);
    try reflexivity.
  exists w'. split; [exact Hswitch|]. split; [|by split].
  apply Hreflect. intros i o Hin.
  apply elem_of_cons in Hin as [Heq|Hin].
  - injection Heq as -> ->. reflexivity.
  - apply elem_of_cons in Hin as [Heq|Hin]; [discriminate Heq|].
    by apply elem_of_nil in Hin.
Defined.

(** With fewer videos than input pins there is a registered pin without a
    video: the pin at position [len(videos)]. *)
Lemma spare_pin_exists (s : VidLooper) :
  dict_wf (gpio_pins s) ->
  (length (videos s) < length (gpio_pins s))%nat ->
  exists pin,
    In pin (in_pins s) /\ index pin (in_pins s) = Some (length (videos s)).
Proof.
  unfold dict_wf, in_pins. intros Hwf Hlt.
  destruct (lookup_lt_is_Some_2 (keys (gpio_pins s)) (length (videos s)))
    as [pin Hpin].
  { unfold keys. by rewrite length_map. }
  exists pin. split.
  - apply list_elem_of_In. eapply list_elem_of_lookup_2. exact Hpin.
  - by apply index_lookup_NoDup.
Qed.

(** C9.  With fewer videos than input pins, [switch_vid] on a registered
    pin whose position among the input pins is at or beyond the number of
    videos raises [IndexError], and does so after the output pins have been
    rewritten: the state it leaves is the one the loop over the pin pairs
    produced.  For a registered pin, [switch_vid] raises [IndexError]
    exactly when the pin's position is not below the number of videos. *)
Theorem C9_pin_without_video_raises (pin : Z) (k : nat) (st : St) :
  (length (videos (self st)) < length (gpio_pins (self st)))%nat ->
  index pin (in_pins (self st)) = Some k ->
  ((length (videos (self st)) <= k)%nat ->
   switch_vid pin st
   = (Raise (IndexError "list index out of range"), outputs_written pin st))
  /\ ((exists m, fst (switch_vid pin st) = Raise (IndexError m))
      <-> (length (videos (self st)) <= k)%nat).
Proof.
  intros _ Hidx. rewrite switch_vid_eq, Hidx.
  destruct (videos (self st) !! k) as [filename|] eqn:Hvid.
  - apply lookup_lt_Some in Hvid. split; [lia|]. split; [|lia].
    intros [m Hm]. exfalso.
    destruct (negb _ || _); [|discriminate Hm].
    by apply play_video_not_IndexError in Hm.
  - apply lookup_ge_None in Hvid. split; [done|]. split; [done|]. eauto.
Qed.

Lemma C9_pin_without_video_raises_witness :
  switch_vid 22 example_spare_pin
  = (Raise (IndexError "list index out of range"),
     outputs_written 22 example_spare_pin)
  /\ levels (world (outputs_written 22 example_spare_pin)) !! 23 = Some HIGH.
Proof.
  split.
  - apply (C9_pin_without_video_raises 22 1%nat example_spare_pin);
      [simpl; lia | reflexivity | simpl; lia].
  - reflexivity.
Defined.

(** C8.  In an iteration of the idle loop with looping disabled and the
    engine reporting [Ended], the body drives every configured output pin
    LOW and clears the active-video record.  With looping enabled an
    iteration changes nothing at all, so no number of polls clears the
    record or touches a pin. *)
Theorem C8_poll_resets_only_without_loop (st : St) :
  (loop (self st) = false ->
   forall p, _player (self st) = Some p -> state p = Ended ->
   exists st',
     poll_iteration st = (Ok tt, st')
     /\ (forall o, o ∈ out_pins (self st) ->
                   levels (world st') !! o = Some LOW)
     /\ _active_vid (self st') = None)
  /\ (loop (self st) = true ->
      poll_iteration st = (Ok tt, st)
      /\ forall n, idle_loop (replicate n Poll) st = st).
Proof.
  split.
  - intros Hloop p Hp Hended. rewrite poll_iteration_eq, Hloop, Hp.
    rewrite bool_decide_eq_true_2 by done.
    eexists. split; [reflexivity|]. split; [|reflexivity].
    intros o Ho. simpl. apply drive_all_LOW.
    + apply reset_calls_LOW.
    + by apply reset_calls_all.
  - intros Hloop.
    assert (poll_iteration st = (Ok tt, st)) as Hpoll
        by (by rewrite poll_iteration_eq, Hloop).
    split; [done|].
    induction n as [|n IH]; [done|]. simpl. by rewrite Hpoll.
Qed.

Lemma C8_poll_resets_only_without_loop_witness :
  (exists st',
      poll_iteration example_ended = (Ok tt, st')
      /\ (forall o, o ∈ out_pins (self example_ended) ->
                    levels (world st') !! o = Some LOW)
      /\ _active_vid (self st') = None)
  /\ (poll_iteration example_state = (Ok tt, example_state)
      /\ forall n, idle_loop (replicate n Poll) example_state = example_state).
Proof.
  split.
  - apply (proj1 (C8_poll_resets_only_without_loop example_ended) eq_refl
             (mkPlayer (Some (mkMedia "A.mp4" [])) Ended) eq_refl eq_refl).
  - apply (proj2 (C8_poll_resets_only_without_loop example_state) eq_refl).
Defined.

(** ** C2: at most one LED *)

Lemma outputs_written_levels pin st :
  levels (world (outputs_written pin st))
  = switch_levels pin (gpio_pins (self st)) (levels (world st)).
Proof. reflexivity. Qed.

(** Whatever the levels were, and whether or not the call returns
    normally, [switch_vid] leaves at most one output HIGH. *)
Lemma switch_vid_at_most_one pin st :
  dict_wf (gpio_pins (self st)) ->
  at_most_one_high (snd (switch_vid pin st)).
Proof.
  intros Hwf o1 o2. unfold is_high, out_pins.
  rewrite switch_vid_gpio_pins, switch_vid_levels, outputs_written_levels.
  intros Ho1 Ho2 Hh1 Hh2.
  apply switch_levels_HIGH in Hh1; [|done].
  apply switch_levels_HIGH in Hh2; [|done].
  by injection (dict_functional _ _ _ _ Hwf Hh1 Hh2).
Qed.

(** A state whose outputs are all LOW. *)
Lemma all_low_at_most_one st :
  (forall o, o ∈ out_pins (self st) -> levels (world st) !! o = Some LOW) ->
  at_most_one_high st.
Proof.
  intros Hlow o1 o2 Ho1 _ Hh1 _. unfold is_high in Hh1.
  rewrite (Hlow o1 Ho1) in Hh1. discriminate Hh1.
Qed.

Lemma pins_set_up_low st o :
  o ∈ out_pins (self st) ->
  levels (world (pins_set_up st)) !! o = Some LOW.
Proof.
  intros Ho. apply (drive_all_LOW (pin_setup_calls (self st))).
  - apply pin_setup_calls_LOW.
  - by apply pin_setup_calls_all.
Qed.

Lemma apply_gpio_levels cs w :
  levels (apply_gpio cs w) = drive_all cs (levels w).
Proof. reflexivity. Qed.

Lemma detect_levels pins w :
  levels (apply_gpio (concat (map detect_calls pins)) w) = levels w.
Proof.
  rewrite apply_gpio_levels. apply drive_all_nothing, detect_calls_nothing.
Qed.

Lemma at_most_one_same st st' :
  gpio_pins (self st') = gpio_pins (self st) ->
  levels (world st') = levels (world st) ->
  at_most_one_high st -> at_most_one_high st'.
Proof.
  intros Hpins Hlv Hone o1 o2. unfold is_high, out_pins.
  rewrite Hpins, Hlv. apply Hone.
Qed.

Lemma start_setup_inv st0 st :
  dict_wf (gpio_pins (self st0)) ->
  start_setup st0 = (Ok tt, st) ->
  gpio_pins (self st) = gpio_pins (self st0) /\ at_most_one_high st.
Proof.
  intros Hwf. rewrite start_setup_eq.
  destruct (autostart (self st0)).
  - destruct (splash (self st0)); [discriminate|].
    destruct (head (in_pins (self st0))) as [first|]; [|discriminate].
    pose proof (switch_vid_at_most_one first (pins_set_up st0) Hwf) as Hone.
    pose proof (switch_vid_gpio_pins first (pins_set_up st0)) as Hpins.
    destruct (switch_vid first (pins_set_up st0)) as [[[]|e] st'];
      [|discriminate].
    intros [= <-]. split; [exact Hpins|].
    eapply at_most_one_same; [| |exact Hone].
    + reflexivity.
    + apply detect_levels.
  - intros [= <-]. split; [reflexivity|].
    apply all_low_at_most_one. intros o Ho.
    unfold callbacks_registered. cbn [world self].
    rewrite detect_levels. by apply pins_set_up_low.
Qed.

Lemma poll_iteration_inv st :
  at_most_one_high st ->
  gpio_pins (self (snd (poll_iteration st))) = gpio_pins (self st)
  /\ at_most_one_high (snd (poll_iteration st)).
Proof.
  intros Hone. rewrite poll_iteration_eq. simpl.
  destruct (loop (self st)); [done|].
  destruct (_player (self st)) as [p|]; [|done].
  destruct (bool_decide (state p = Ended)); [|done].
  split; [reflexivity|].
  apply all_low_at_most_one. intros o Ho.
  unfold outputs_reset. cbn [world self]. rewrite apply_gpio_levels.
  apply drive_all_LOW; [apply reset_calls_LOW | by apply reset_calls_all].
Qed.

Lemma engine_reports_inv e st :
  at_most_one_high st ->
  gpio_pins (self (engine_reports e st)) = gpio_pins (self st)
  /\ at_most_one_high (engine_reports e st).
Proof.
  intros Hone. unfold engine_reports.
  destruct (_player (self st)); [|done]. split; [reflexivity|]. exact Hone.
Qed.

Lemma reachable_inv st0 st :
  dict_wf (gpio_pins (self st0)) ->
  reachable st0 st ->
  gpio_pins (self st) = gpio_pins (self st0) /\ at_most_one_high st.
Proof.
  intros Hwf Hreach.
  induction Hreach as [st Hstart|st pin r st' _ [Hpins Hone] _ Hswitch
                       |st r st' _ [Hpins Hone] Hpoll|st e _ [Hpins Hone]].
  - by apply start_setup_inv.
  - replace st' with (snd (switch_vid pin st)) by (by rewrite Hswitch).
    split.
    + by rewrite switch_vid_gpio_pins.
    + apply switch_vid_at_most_one. by rewrite Hpins.
  - replace st' with (snd (poll_iteration st)) by (by rewrite Hpoll).
    destruct (poll_iteration_inv st Hone) as [-> ?]. done.
  - destruct (engine_reports_inv e st Hone) as [-> ?]. done.
Qed.

(** C2, counterexample.  The parser accepts a spec in which two input
    pins name the same output pin.  After [start], pressing pin 17 writes
    pin 27 HIGH for the first pair and then LOW for the second: the call
    returns, pin 27 is the output mapped to 17, and it is LOW. *)
Lemma C2_shared_output_counterexample : ~ one_led_as_claimed.
Proof.
  intros Hclaim.
  assert (GpioParser.call "17:27,22:27" = Ok (gpio_pins (self shared_led)))
    as _ by reflexivity.
  assert (__init__ (fun _ => true) (fun _ => Ok []) shared_led_args
                   initial_world
          = (Ok (self shared_led), world shared_led)) as _ by reflexivity.
  assert (dict_wf (gpio_pins (self shared_led))) as Hwf.
  { unfold dict_wf. simpl. apply NoDup_cons. split.
    - intros Hin. apply list_elem_of_singleton in Hin. discriminate Hin.
    - apply NoDup_singleton. }
  set (st := snd (start_setup shared_led)).
  assert (reachable shared_led st) as Hreach.
  { apply reach_start. vm_compute. reflexivity. }
  destruct (Hclaim shared_led st Hwf Hreach) as [_ Hlit].
  specialize (Hlit 17 (snd (switch_vid 17 st))).
  assert (lit_iff_mapped 17 (snd (switch_vid 17 st))) as Hiff.
  { apply Hlit.
    - left. reflexivity.
    - vm_compute. reflexivity. }
  assert (is_high (snd (switch_vid 17 st)) 27) as Hhigh.
  { apply (Hiff 27).
    - left.
    - left. }
  vm_compute in Hhigh. discriminate Hhigh.
Qed.

(** C2, amended.  In every state reachable from [start] by presses of
    registered pins, idle polls and engine reports, at most one configured
    output pin is HIGH; and when no two pin pairs share an output pin,
    after [switch_vid pin] has returned an output pin is HIGH exactly when
    it is the output pin mapped to [pin]. *)
Theorem C2_at_most_one_led (st0 st : St) :
  dict_wf (gpio_pins (self st0)) ->
  reachable st0 st ->
  at_most_one_high st
  /\ forall pin st',
       In pin (in_pins (self st)) ->
       NoDup (out_pins (self st)) ->
       switch_vid pin st = (Ok tt, st') ->
       lit_iff_mapped pin st'.
Proof.
  intros Hwf Hreach.
  destruct (reachable_inv st0 st Hwf Hreach) as [Hpins Hone].
  split; [exact Hone|].
  intros pin st' _ Hnd Hswitch o.
  replace st' with (snd (switch_vid pin st)) by (by rewrite Hswitch).
  unfold is_high, out_pins.
  rewrite switch_vid_gpio_pins, switch_vid_levels, outputs_written_levels.
  intros Ho. split.
  - by apply switch_levels_HIGH.
  - by apply switch_levels_mapped.
Qed.

Lemma C2_at_most_one_led_witness :
  at_most_one_high (snd (start_setup example_fresh))
  /\ forall pin st',
       In pin (in_pins (self (snd (start_setup example_fresh)))) ->
       NoDup (out_pins (self (snd (start_setup example_fresh)))) ->
       switch_vid pin (snd (start_setup example_fresh)) = (Ok tt, st') ->
       lit_iff_mapped pin st'.
Proof.
  apply (C2_at_most_one_led example_fresh (snd (start_setup example_fresh))).
  - unfold dict_wf. simpl. apply NoDup_cons. split.
    + intros Hin. apply list_elem_of_singleton in Hin. discriminate Hin.
    + apply NoDup_singleton.
  - apply reach_start. vm_compute. reflexivity.
Defined.

(** ** C3: entries with extra fields *)

(** C3 (the code departs from the claim).  The entry ["17:27:5"] has three
    colon-separated fields.  The length test of the parser is the chained
    comparison [0 == len(pair_split) > 2], which holds for no length, so
    the entry is not rejected: it parses exactly like ["17:27"] and the
    third field is dropped. *)
Theorem C3_extra_field_is_accepted :
  split ":"%char "17:27:5" = ["17"; "27"; "5"]
  /\ (forall entry, invalid_format (split ":"%char entry) = false)
  /\ GpioParser.call "17:27:5" = Ok [(17, Some 27)]
  /\ GpioParser.call "17:27:5" = GpioParser.call "17:27".
Proof.
  split; [reflexivity|]. split; [|split; reflexivity].
  intros entry. apply invalid_format_never.
Qed.

(** ** C4 and C5: names the module never binds *)

(** C4 (the code departs from the claim).  [start] does register a
    falling-edge callback on the configured shutdown pin, but the callback
    refers to [call], a name the module never imports: every invocation
    raises [NameError] before any command is issued, and leaves the state
    as it found it.  In a run with shutdown pin 3, an edge on that pin
    only leaves a traceback; no [shutdown] command reaches the host. *)
Theorem C4_shutdown_callback_raises_NameError :
  (forall st,
      shutdown_callback st
      = (Raise (NameError "name 'call' is not defined"), st))
  /\ exists st,
       program (fun _ => true) (fun _ => Ok []) example_shutdown_args
               [ShutdownEdge] initial_world = ran st
       /\ In (add_event_detect_FALLING 3 shutdown_handler 200)
             (gpio_log (world st))
       /\ host_log (world st)
          = [Host.system "clear"; Host.system "tput civis";
             Host.traceback (NameError "name 'call' is not defined")].
Proof.
  split; [reflexivity|].
  eexists. split; [vm_compute; reflexivity|].
  split; [|reflexivity].
  simpl. repeat (first [left; reflexivity | right]).
Qed.

(** C5 (the code departs from the claim).  With autostart enabled and a
    splash image configured, [start] refers to [Popen], a name the module
    never imports: it raises [NameError] once the pins are set up, no
    viewer process is launched, no handle is recorded and no callback is
    registered for the input pins.  With autostart enabled and no splash
    image, [start] calls [switch_vid] on the first input pin. *)
Theorem C5_splash_autostart_raises_NameError (st : St) :
  autostart (self st) = true ->
  (forall image,
      splash (self st) = Some image ->
      start_setup st
      = (Raise (NameError "name 'Popen' is not defined"), pins_set_up st)
      /\ _splashproc (self (pins_set_up st)) = _splashproc (self st)
      /\ host_log (world (pins_set_up st))
         = (host_log (world st) ++ terminal_calls (self st))%list)
  /\ (splash (self st) = None ->
      forall first st',
        head (in_pins (self st)) = Some first ->
        switch_vid first (pins_set_up st) = (Ok tt, st') ->
        start_setup st = (Ok tt, callbacks_registered st')).
Proof.
  intros Hauto. split.
  - intros image Hsplash. rewrite start_setup_eq, Hauto, Hsplash.
    repeat split.
  - intros Hsplash first st' Hfirst Hswitch.
    rewrite start_setup_eq, Hauto, Hsplash, Hfirst, Hswitch.
    unfold callbacks_registered.
    replace (in_pins (self st')) with (in_pins (self st)); [reflexivity|].
    unfold in_pins.
    replace st' with (snd (switch_vid first (pins_set_up st)))
      by (by rewrite Hswitch).
    by rewrite switch_vid_gpio_pins.
Qed.

Lemma C5_splash_autostart_raises_NameError_witness :
  start_setup example_splash
  = (Raise (NameError "name 'Popen' is not defined"),
     pins_set_up example_splash)
  /\ _splashproc (self (pins_set_up example_splash)) = None
  /\ host_log (world (pins_set_up example_splash))
     = [Host.system "clear"; Host.system "tput civis"].
Proof.
  apply (proj1 (C5_splash_autostart_raises_NameError example_splash eq_refl)
               "splash.png" eq_refl).
Defined.

(** ** C6 and C7: the checks of the constructor *)

Section Construction.

Variable path_exists : string -> bool.
Variable listdir : string -> result (list string).

Lemma check_videos_all_exist vids :
  all_exist path_exists vids -> check_videos path_exists vids = Ok tt.
Proof.
  induction 1 as [|v vids Hv _ IH]; simpl; [done|]. by rewrite Hv.
Qed.

(** The loop stops at the first missing path. *)
Lemma check_videos_missing vids v :
  v ∈ vids -> path_exists v = false ->
  exists missing,
    missing ∈ vids /\ path_exists missing = false
    /\ check_videos path_exists vids
       = Raise (FileNotFoundError
                  ("Video " ++ dquote ++ missing ++ dquote ++ " not found")).
Proof.
  induction vids as [|x vids IH]; intros Hin Hv.
  - by apply elem_of_nil in Hin.
  - simpl. destruct (path_exists x) eqn:Hx.
    + apply elem_of_cons in Hin as [->|Hin]; [congruence|].
      destruct (IH Hin Hv) as (m & Hm & Hmf & Heq).
      exists m. split; [by right|]. done.
    + exists x. split; [left|]. done.
Qed.

Lemma select_videos_candidates a vids :
  candidate_videos listdir a = Some vids ->
  all_exist path_exists vids -> vids <> [] ->
  select_videos path_exists listdir a = Ok vids.
Proof.
  unfold candidate_videos, select_videos. intros Hc Hall Hne.
  destruct (arg_videos a) as [[|v vs]|].
  - destruct (scan_dir listdir (arg_video_dir a)) as [found|]; [|done].
    injection Hc as ->. simpl. by destruct vids.
  - injection Hc as <-. by rewrite check_videos_all_exist.
  - destruct (scan_dir listdir (arg_video_dir a)) as [found|]; [|done].
    injection Hc as ->. simpl. by destruct vids.
Qed.

(** C6, amended.  For every configuration offering [N >= 1] videos, all
    existing, and [M] configured input pins, construction succeeds
    exactly when [N <= M]; when [N > M] it fails with the assertion
    error, before the playback engine is touched. *)
Theorem C6_construction_iff_enough_pins (a : Args) (w : World)
        (vids : list string) :
  candidate_videos listdir a = Some vids ->
  all_exist path_exists vids ->
  vids <> [] ->
  (is_ok (fst (__init__ path_exists listdir a w)) = true
   <-> (length vids <= length (pins_of a))%nat)
  /\ ((length (pins_of a) < length vids)%nat ->
      __init__ path_exists listdir a w
      = (Raise (AssertionError
                  "Not enough GPIO pins configured for number of videos"),
         w)).
Proof.
  intros Hc Hall Hne. unfold __init__.
  rewrite (select_videos_candidates a vids Hc Hall Hne).
  destruct (Nat.leb_spec (length vids) (length (pins_of a))) as [Hle|Hgt].
  - simpl. split; [done|]. lia.
  - simpl. split; [|done]. split; [done|lia].
Qed.

(** C7.  When an explicit video list names a path that does not exist,
    construction raises [FileNotFoundError] for the first such path and
    returns the world untouched: no playback-engine instance or media
    player has been created and no GPIO call has been made. *)
Theorem C7_missing_video_fails_before_setup (a : Args) (w : World)
        (vids : list string) (v : string) :
  arg_videos a = Some vids ->
  v ∈ vids ->
  path_exists v = false ->
  exists missing,
    missing ∈ vids /\ path_exists missing = false
    /\ __init__ path_exists listdir a w
       = (Raise (FileNotFoundError
                   ("Video " ++ dquote ++ missing ++ dquote ++ " not found")),
          w).
Proof.
  intros Hvids Hin Hv.
  destruct (check_videos_missing vids v Hin Hv) as (m & Hm & Hmf & Heq).
  exists m. split; [done|]. split; [done|].
  unfold __init__, select_videos. rewrite Hvids.
  destruct vids as [|x vs]; [by apply elem_of_nil in Hin|].
  by rewrite Heq.
Qed.

End Construction.

(** C6, counterexample.  Nothing is named and the directory holds no
    video: the configuration offers [N = 0] videos, the default mapping
    has [M = 4] input pins, [0 <= 4], and construction fails. *)
Lemma C6_no_videos_counterexample :
  ~ enough_pins_as_claimed example_exists example_listdir
      (example_args None) initial_world [].
Proof.
  unfold enough_pins_as_claimed. intros Hclaim.
  assert (is_ok (fst (__init__ example_exists example_listdir
                        (example_args None) initial_world)) = true) as Hok.
  { apply Hclaim; [reflexivity | constructor | simpl; lia]. }
  vm_compute in Hok. discriminate Hok.
Qed.

Lemma C6_construction_iff_enough_pins_witness :
  is_ok (fst (__init__ example_exists example_listdir
                (example_args (Some ["A.mp4"; "B.mp4"])) initial_world)) = true
  <-> (2 <= 4)%nat.
Proof.
  apply (C6_construction_iff_enough_pins example_exists example_listdir
           (example_args (Some ["A.mp4"; "B.mp4"])) initial_world
           ["A.mp4"; "B.mp4"]).
  - reflexivity.
  - repeat constructor.
  - discriminate.
Defined.

Lemma C7_missing_video_fails_before_setup_witness :
  exists missing,
    missing ∈ ["A.mp4"; "C.mp4"] /\ example_exists missing = false
    /\ __init__ example_exists example_listdir
         (example_args (Some ["A.mp4"; "C.mp4"])) initial_world
       = (Raise (FileNotFoundError
                   ("Video " ++ dquote ++ missing ++ dquote ++ " not found")),
          initial_world).
Proof.
  apply (C7_missing_video_fails_before_setup example_exists example_listdir
           (example_args (Some ["A.mp4"; "C.mp4"])) initial_world
           ["A.mp4"; "C.mp4"] "C.mp4").
  - reflexivity.
  - right. left.
  - reflexivity.
Defined.

(** ** C10: the [no_osd] attribute *)

Lemma ign_ret {A} (a : A) : ignores_no_osd (mret a).
Proof. done. Qed.

Lemma ign_raise {A} e : ignores_no_osd (@raise A e).
Proof. done. Qed.

Lemma ign_of_option {A} (o : option A) e : ignores_no_osd (of_option o e).
Proof. by destruct o. Qed.

Lemma ign_of_result {A} (r : result A) : ignores_no_osd (of_result r).
Proof. done. Qed.

Lemma ign_gpio c : ignores_no_osd (gpio c).
Proof. done. Qed.

Lemma ign_vlc c : ignores_no_osd (vlc c).
Proof. done. Qed.

Lemma ign_host c : ignores_no_osd (host c).
Proof. done. Qed.

Lemma ign_modify_self f :
  (forall b s, f (set_no_osd b s) = set_no_osd b (f s)) ->
  ignores_no_osd (modify_self f).
Proof. intros Hf b st. unfold modify_self, osd. simpl. by rewrite Hf. Qed.

Lemma ign_bind {A B} (m : M A) (k : A -> M B) :
  ignores_no_osd m -> (forall a, ignores_no_osd (k a)) ->
  ignores_no_osd (m ≫= k).
Proof.
  intros Hm Hk b st. unfold mbind, M_bind. rewrite Hm.
  destruct (m st) as [[a|e] st']; simpl; [apply Hk|done].
Qed.

(** Reading [self] is harmless when the continuation reads only the other
    attributes. *)
Lemma ign_get_self {A} (k : VidLooper -> M A) :
  (forall b s, k (set_no_osd b s) = k s) ->
  (forall s, ignores_no_osd (k s)) ->
  ignores_no_osd (get_self ≫= k).
Proof.
  intros Hsame Hk b st. unfold mbind, M_bind, get_self. simpl.
  rewrite Hsame. apply Hk.
Qed.

Lemma ign_for_each {A} (l : list A) (body : A -> M unit) :
  (forall x, ignores_no_osd (body x)) -> ignores_no_osd (for_each l body).
Proof.
  intros Hbody. induction l as [|x l IH]; simpl.
  - apply ign_ret.
  - apply ign_bind; [apply Hbody|]. intros _. exact IH.
Qed.

Create HintDb ign discriminated.
#[local] Hint Resolve ign_ret ign_raise ign_of_option ign_of_result ign_gpio
  ign_vlc ign_host : ign.

Lemma ign_on_player name c f : ignores_no_osd (on_player name c f).
Proof.
  unfold on_player. apply ign_get_self; [done|]. intros s.
  destruct (_player s); [|auto with ign].
  apply ign_bind; [auto with ign|]. intros _.
  by apply ign_modify_self.
Qed.
#[local] Hint Resolve ign_on_player : ign.

Lemma ign_kill_process : ignores_no_osd _kill_process.
Proof.
  unfold _kill_process. apply ign_get_self; [done|]. intros s.
  destruct (_player s); auto with ign.
Qed.
#[local] Hint Resolve ign_kill_process : ign.

Ltac ign_step :=
  first [ solve [auto with ign]
        | apply ign_modify_self; solve [done]
        | apply ign_for_each; intros ?
        | apply ign_bind; [|intros ?] ].

Lemma ign_switch_vid pin : ignores_no_osd (switch_vid pin).
Proof.
  unfold switch_vid. apply ign_get_self; [done|]. intros s.
  apply ign_bind.
  { apply ign_for_each. intros [i [o|]]; auto with ign. }
  intros _. apply ign_bind; [auto with ign|]. intros k.
  apply ign_bind; [auto with ign|]. intros filename.
  destruct (negb _ || _); [|auto with ign].
  repeat ign_step. destruct (loop s); repeat ign_step.
Qed.
#[local] Hint Resolve ign_switch_vid : ign.

Lemma ign_shutdown_callback : ignores_no_osd shutdown_callback.
Proof. unfold shutdown_callback. repeat ign_step. Qed.

Lemma ign_poll_iteration : ignores_no_osd poll_iteration.
Proof.
  unfold poll_iteration. apply ign_get_self; [done|]. intros s.
  destruct (loop s); [auto with ign|].
  destruct (_player s) as [p|]; [|auto with ign].
  destruct (bool_decide (state p = Ended)); [|auto with ign].
  apply ign_bind.
  - apply ign_for_each. intros [o|]; auto with ign.
  - intros _. by apply ign_modify_self.
Qed.

Lemma ign_del : ignores_no_osd __del__.
Proof.
  unfold __del__. apply ign_get_self; [done|]. intros s.
  apply ign_bind; [destruct (debug s); auto with ign|]. intros _.
  repeat ign_step. destruct (_splashproc s); auto with ign.
Qed.

Lemma ign_start_setup : ignores_no_osd start_setup.
Proof.
  unfold start_setup. apply ign_get_self; [done|]. intros s.
  apply ign_bind.
  { destruct (debug s); [auto with ign|]. repeat ign_step. }
  intros _. apply ign_bind; [auto with ign|]. intros _.
  apply ign_bind.
  { apply ign_for_each. intros [i [o|]]; repeat ign_step. }
  intros _. apply ign_bind.
  { destruct (shutdown_configured s); repeat ign_step. }
  intros _. apply ign_bind.
  { destruct (autostart s); [|auto with ign].
    destruct (splash s); repeat ign_step. }
  intros _. repeat ign_step.
Qed.

Lemma osd_in_callback (m : M unit) b st :
  ignores_no_osd m -> in_callback m (osd b st) = osd b (in_callback m st).
Proof.
  intros Hm. unfold in_callback. rewrite Hm.
  by destruct (m st) as [[[]|e] st'].
Qed.

Lemma osd_engine_reports e b st :
  engine_reports e (osd b st) = osd b (engine_reports e st).
Proof. unfold engine_reports. simpl. by destruct (_player (self st)). Qed.

Lemma osd_deliver ev b st : deliver ev (osd b st) = osd b (deliver ev st).
Proof.
  destruct ev as [pin| | |e|]; simpl.
  - destruct (contains pin (gpio_pins (self st))); [|done].
    apply osd_in_callback, ign_switch_vid.
  - change (shutdown_configured (set_no_osd b (self st)))
      with (shutdown_configured (self st)).
    destruct (shutdown_configured (self st)); [|done].
    apply osd_in_callback, ign_shutdown_callback.
  - by rewrite ign_poll_iteration.
  - apply osd_engine_reports.
  - done.
Qed.

Lemma osd_idle_loop evs b st :
  idle_loop evs (osd b st) = osd b (idle_loop evs st).
Proof.
  revert st. induction evs as [|ev evs IH]; intros st; [done|].
  destruct ev; simpl; rewrite <- ?IH;
    try (f_equal; apply (osd_deliver (Press _))
         || apply (osd_deliver ShutdownEdge)
         || apply (osd_deliver Poll)
         || apply (osd_deliver (EngineReports _))).
  by rewrite ign_del.
Qed.

Lemma osd_start evs b st :
  start evs (osd b st) = (fst (start evs st), osd b (snd (start evs st))).
Proof.
  unfold start. rewrite ign_start_setup.
  destruct (start_setup st) as [[[]|e] st']; simpl; [|done].
  by rewrite osd_idle_loop.
Qed.

Lemma init_with_no_osd path_exists listdir a b w :
  __init__ path_exists listdir (with_no_osd b a) w
  = match __init__ path_exists listdir a w with
    | (Ok s, w') => (Ok (set_no_osd b s), w')
    | (Raise e, w') => (Raise e, w')
    end.
Proof.
  unfold __init__.
  change (select_videos path_exists listdir (with_no_osd b a))
    with (select_videos path_exists listdir a).
  change (pins_of (with_no_osd b a)) with (pins_of a).
  destruct (select_videos path_exists listdir a) as [vids|e]; [|done].
  by destruct (Nat.leb (length vids) (length (pins_of a))).
Qed.

(** C10.  Two runs on the same disk, from the same world, with the same
    events and with arguments that differ at most in [no_osd] end the
    same way: the same exception if any, the same GPIO levels and calls,
    the same commands to the playback engine and to the host, and the
    same object, the stored [no_osd] attribute aside. *)
Theorem C10_no_osd_has_no_effect
        (path_exists : string -> bool)
        (listdir : string -> result (list string))
        (a : Args) (b : bool) (evs : list event) (w : World) :
  forget_no_osd (program path_exists listdir (with_no_osd b a) evs w)
  = forget_no_osd (program path_exists listdir a evs w).
Proof.
  unfold program. rewrite init_with_no_osd.
  destruct (__init__ path_exists listdir a w) as [[s|e] w']; [|done].
  change (mkSt (set_no_osd b s) w') with (osd b (mkSt s w')).
  rewrite osd_start.
  by destruct (start evs (mkSt s w')) as [[[]|e] st'].
Qed.

(* ===================================================================== *)
(** * Further properties: the pin-spec parser                             *)
(* ===================================================================== *)

Lemma split_nonempty sep s : split sep s <> [].
Proof.
  destruct s as [|c s]; simpl; [done|].
  destruct (Ascii.eqb c sep); [done|]. by destruct (split sep s).
Qed.

Lemma contains_elem_of {V} k (d : dict V) :
  contains k d = true <-> k ∈ keys d.
Proof.
  unfold contains. rewrite existsb_exists. split.
  - intros (x & Hin & Heq). apply Z.eqb_eq in Heq as ->.
    by apply list_elem_of_In.
  - intros Hin. exists k. split; [by apply list_elem_of_In|].
    apply Z.eqb_refl.
Qed.

(** Setting a key the dict does not hold appends the pair. *)
Lemma setitem_fresh {V} k (v : V) (d : dict V) :
  contains k d = false -> setitem k v d = (d ++ [(k, v)])%list.
Proof.
  unfold contains, keys. induction d as [|[k' v'] d IH]; simpl; [done|].
  intros Hc. apply orb_false_iff in Hc as [Hk Hc].
  rewrite Hk. by rewrite IH.
Qed.

(** One iteration of the parser's loop, case by case. *)
Lemma parse_pair_cases d entry :
  match entry_pins entry with
  | Some (i, o) =>
      parse_pair d entry
      = if contains i d
        then Raise (ValueError ("Duplicate GPIO input pin: " ++ pretty i))
        else Ok (d ++ [(i, o)])%list
  | None =>
      parse_pair d entry
      = Raise (ValueError "GPIO input pin must be numeric integer")
      \/ parse_pair d entry
         = Raise (ValueError "GPIO output pin must be numeric integer")
  end.
Proof.
  unfold entry_pins, parse_pair. rewrite invalid_format_never.
  pose proof (split_nonempty ":"%char entry) as Hne.
  destruct (split ":"%char entry) as [|f0 rest]; [done|]. simpl.
  destruct (int f0) as [i|]; [|by left].
  destruct rest as [|f1 rest]; simpl.
  - destruct (contains i d) eqn:Hc; [done|]. by rewrite setitem_fresh.
  - destruct (int f1) as [o|]; simpl; [|by right].
    destruct (contains i d) eqn:Hc; [done|]. by rewrite setitem_fresh.
Qed.

Lemma keys_app {V} (d1 d2 : dict V) :
  keys (d1 ++ d2)%list = (keys d1 ++ keys d2)%list.
Proof. unfold keys. apply map_app. Qed.

(** The loop over the entries, from any mapping built so far. *)
Lemma parse_pairs_Ok_iff entries d d' :
  dict_wf d ->
  parse_pairs d entries = Ok d'
  <-> exists ps,
        entries_pins entries = Some ps /\ d' = (d ++ ps)%list /\ dict_wf d'.
Proof.
  revert d. induction entries as [|entry entries IH]; intros d Hwf; simpl.
  - split.
    + intros [= <-]. exists []. by rewrite app_nil_r.
    + intros (ps & [= <-] & -> & _). by rewrite app_nil_r.
  - pose proof (parse_pair_cases d entry) as Hcase.
    destruct (entry_pins entry) as [[i o]|].
    + rewrite Hcase. destruct (contains i d) eqn:Hc; simpl.
      * split; [done|]. intros (ps & Hps & -> & Hwf').
        destruct (entries_pins entries) as [ps'|]; [|done].
        injection Hps as <-. exfalso.
        apply contains_elem_of in Hc. unfold dict_wf in Hwf'.
        rewrite keys_app in Hwf'. apply NoDup_app in Hwf' as (_ & Hdis & _).
        apply (Hdis i Hc). left.
      * assert (dict_wf (d ++ [(i, o)])%list) as Hwf1.
        { unfold dict_wf. rewrite keys_app. apply NoDup_app.
          split; [done|]. split; [|apply NoDup_singleton].
          intros k Hk Hk'. apply list_elem_of_singleton in Hk' as ->.
          apply contains_elem_of in Hk. simpl in Hk. congruence. }
        rewrite (IH _ Hwf1). split.
        -- intros (ps & -> & -> & Hwf'). exists ((i, o) :: ps).
           split; [done|]. split; [|done]. by rewrite <- app_assoc.
        -- intros (ps & Hps & -> & Hwf').
           destruct (entries_pins entries) as [ps'|]; [|done].
           injection Hps as <-. exists ps'.
           split; [done|]. rewrite <- app_assoc. done.
    + split.
      * intros H. destruct Hcase as [Hr|Hr]; rewrite Hr in H; done.
      * by intros (ps & Hps & _).
Qed.

(** X1.  On ASCII text of at most 4300 characters -- where [int] is
    exactly the model of it -- the parser succeeds exactly when every
    comma-separated entry is well formed and no two entries name the same
    input pin; the mapping it returns then holds one pair per entry, in
    the order of the entries. *)
Theorem X1_parser_succeeds_iff (values : string) (d : gpio_dict) :
  ascii_text values = true ->
  (String.length values <= int_max_str_digits)%nat ->
  GpioParser.call values = Ok d
  <-> entries_pins (split ","%char values) = Some d /\ dict_wf d.
Proof.
  intros _ _. unfold GpioParser.call.
  rewrite (parse_pairs_Ok_iff _ [] d) by constructor. split.
  - intros (ps & Hps & -> & Hwf). done.
  - intros [Hps Hwf]. by exists d.
Qed.

Lemma X1_parser_succeeds_iff_witness :
  GpioParser.call "17:27,22" = Ok example_parsed
  <-> entries_pins (split ","%char "17:27,22") = Some example_parsed
      /\ dict_wf example_parsed.
Proof.
  apply (X1_parser_succeeds_iff "17:27,22" example_parsed).
  - reflexivity.
  - unfold int_max_str_digits. simpl. lia.
Defined.

Lemma parse_pairs_error entries d e :
  parse_pairs d entries = Raise e -> parser_error e.
Proof.
  revert d. induction entries as [|entry entries IH]; intros d; simpl; [done|].
  pose proof (parse_pair_cases d entry) as Hcase.
  destruct (entry_pins entry) as [[i o]|].
  - rewrite Hcase. destruct (contains i d); simpl.
    + intros [= <-]. right. right. by exists i.
    + apply IH.
  - destruct Hcase as [Hr|Hr]; rewrite Hr; simpl; intros [= <-].
    + by left.
    + right. by left.
Qed.

(** X2.  Whatever the string, a failing parse raises one of three
    [ValueError]s: input pin not numeric, output pin not numeric, or
    duplicate input pin.  It never raises the 'Invalid GPIO pin format'
    error the source also contains, and never an [IndexError]. *)
Theorem X2_parser_errors (values : string) (e : exn) :
  GpioParser.call values = Raise e ->
  parser_error e
  /\ e <> ValueError "Invalid GPIO pin format"
  /\ forall m, e <> IndexError m.
Proof.
  intros H. apply parse_pairs_error in H. split; [exact H|].
  destruct H as [->|[->|[i ->]]]; split; discriminate.
Qed.

Lemma X2_parser_errors_witness :
  parser_error (ValueError "GPIO output pin must be numeric integer").
Proof.
  apply (X2_parser_errors "17:x"
           (ValueError "GPIO output pin must be numeric integer")).
  reflexivity.
Defined.

Lemma entries_pins_length entries ps :
  entries_pins entries = Some ps -> length ps = length entries.
Proof.
  revert ps. induction entries as [|entry entries IH]; intros ps; simpl.
  - by intros [= <-].
  - destruct (entry_pins entry) as [p|]; [|done].
    destruct (entries_pins entries) as [ps'|]; [|done].
    intros [= <-]. simpl. by rewrite (IH ps').
Qed.

Lemma entries_pins_lookup entries ps j entry :
  entries_pins entries = Some ps -> entries !! j = Some entry ->
  exists p, entry_pins entry = Some p /\ ps !! j = Some p.
Proof.
  revert ps j. induction entries as [|e entries IH]; intros ps j; [done|].
  simpl. destruct (entry_pins e) as [p|] eqn:He; [|done].
  destruct (entries_pins entries) as [ps'|]; [|done].
  intros [= <-]. destruct j as [|j]; simpl.
  - intros [= <-]. eauto.
  - intros Hj. by apply (IH ps').
Qed.

(** X3.  A spec in which two entries name the same input pin is always
    rejected, wherever the two entries stand and whatever outputs they
    name. *)
Theorem X3_duplicate_input_pin_rejected (values : string) (j k : nat)
        (e1 e2 : string) (i : Z) (o1 o2 : option Z) :
  j <> k ->
  split ","%char values !! j = Some e1 ->
  split ","%char values !! k = Some e2 ->
  entry_pins e1 = Some (i, o1) ->
  entry_pins e2 = Some (i, o2) ->
  exists e, GpioParser.call values = Raise e.
Proof.
  intros Hjk Hj Hk He1 He2.
  destruct (GpioParser.call values) as [d|e] eqn:Hcall; [|eauto].
  exfalso. unfold GpioParser.call in Hcall.
  apply parse_pairs_Ok_iff in Hcall as (ps & Hps & -> & Hwf); [|constructor].
  destruct (entries_pins_lookup _ _ _ _ Hps Hj) as (p1 & Hp1 & Hl1).
  destruct (entries_pins_lookup _ _ _ _ Hps Hk) as (p2 & Hp2 & Hl2).
  rewrite He1 in Hp1. rewrite He2 in Hp2.
  injection Hp1 as <-. injection Hp2 as <-.
  apply Hjk. unfold dict_wf, keys in Hwf. simpl in Hwf.
  eapply (NoDup_lookup _ j k i Hwf).
  - change (map fst ps) with (fst <$> ps). by rewrite list_lookup_fmap, Hl1.
  - change (map fst ps) with (fst <$> ps). by rewrite list_lookup_fmap, Hl2.
Qed.

Lemma X3_duplicate_input_pin_rejected_witness :
  exists e, GpioParser.call "17:27,22, 17 :5" = Raise e.
Proof.
  apply (X3_duplicate_input_pin_rejected "17:27,22, 17 :5" 0 2
           "17:27" " 17 :5" 17 (Some 27) (Some 5));
    [discriminate | reflexivity..].
Defined.

(** X4.  A mapping the parser returns is never empty, and has exactly as
    many pairs as the string has comma-separated entries: in particular
    the empty string, a trailing comma and a doubled comma are rejected,
    since an empty entry has no numeric input pin. *)
Theorem X4_parsed_mapping_sizes (values : string) (d : gpio_dict) :
  GpioParser.call values = Ok d ->
  (0 < length d)%nat
  /\ length d = length (split ","%char values)
  /\ EmptyString ∉ split ","%char values.
Proof.
  unfold GpioParser.call. intros Hcall.
  apply parse_pairs_Ok_iff in Hcall as (ps & Hps & -> & Hwf); [|constructor].
  simpl. pose proof (entries_pins_length _ _ Hps) as Hlen.
  pose proof (split_nonempty ","%char values) as Hne.
  split; [|split; [done|]].
  - rewrite Hlen. destruct (split ","%char values); [done|simpl; lia].
  - intros Hin. apply list_elem_of_lookup in Hin as [j Hj].
    by destruct (entries_pins_lookup _ _ _ _ Hps Hj) as (p & Hp & _).
Qed.

Lemma X4_parsed_mapping_sizes_witness :
  (0 < length example_parsed)%nat
  /\ length example_parsed = length (split ","%char "17:27,22")
  /\ EmptyString ∉ split ","%char "17:27,22".
Proof.
  apply (X4_parsed_mapping_sizes "17:27,22" example_parsed).
  reflexivity.
Defined.

(* ===================================================================== *)
(** * Further properties: the constructor                                 *)
(* ===================================================================== *)

Lemma ascii_compare_refl a : Ascii.compare a a = Eq.
Proof. unfold Ascii.compare. apply N.compare_refl. Qed.

Lemma ascii_compare_Lt_trans a b c :
  Ascii.compare a b = Lt -> Ascii.compare b c = Lt -> Ascii.compare a c = Lt.
Proof.
  unfold Ascii.compare. rewrite !N.compare_lt_iff. apply N.lt_trans.
Qed.

Lemma string_compare_Lt_trans s1 s2 s3 :
  String.compare s1 s2 = Lt -> String.compare s2 s3 = Lt ->
  String.compare s1 s3 = Lt.
Proof.
  revert s2 s3. induction s1 as [|a s1 IH]; intros [|b s2] [|c s3];
    simpl; try done.
  destruct (Ascii.compare a b) eqn:Hab; [|clear IH|done];
    (destruct (Ascii.compare b c) eqn:Hbc; [| |done]).
  - apply Ascii.compare_eq_iff in Hab as ->.
    apply Ascii.compare_eq_iff in Hbc as ->.
    rewrite ascii_compare_refl. apply IH.
  - apply Ascii.compare_eq_iff in Hab as ->. by rewrite Hbc.
  - apply Ascii.compare_eq_iff in Hbc as <-. by rewrite Hab.
  - by rewrite (ascii_compare_Lt_trans a b c).
Qed.

Lemma name_le_cases x y : name_le x y <-> x = y \/ String.compare x y = Lt.
Proof.
  unfold name_le, String.leb. split.
  - destruct (String.compare x y) eqn:Hc; [|by right|done].
    left. by apply String.compare_eq_iff.
  - intros [-> | ->]; [|done].
    assert (String.compare y y = Eq) as ->; [|done].
    induction y as [|a y IH]; simpl; [done|]. by rewrite ascii_compare_refl.
Qed.

Lemma name_le_trans x y z : name_le x y -> name_le y z -> name_le x z.
Proof.
  intros Hxy Hyz. apply name_le_cases in Hxy, Hyz. apply name_le_cases.
  destruct Hxy as [->|Hxy]; [done|]. destruct Hyz as [<-|Hyz]; [by right|].
  right. by apply (string_compare_Lt_trans x y z).
Qed.

Lemma name_le_total x y : name_le x y \/ name_le y x.
Proof. apply String.leb_total. Qed.

Lemma insert_sorted_elem_of x l y :
  y ∈ insert_sorted x l <-> y = x \/ y ∈ l.
Proof.
  induction l as [|z l IH]; simpl.
  - rewrite list_elem_of_singleton. split; [by left|].
    intros [->|H]; [done|]. by apply elem_of_nil in H.
  - destruct (String.leb x z).
    + by rewrite elem_of_cons.
    + rewrite !elem_of_cons, IH. tauto.
Qed.

Lemma insert_sorted_sorted x l :
  StronglySorted name_le l -> StronglySorted name_le (insert_sorted x l).
Proof.
  induction 1 as [|z l Hl IH Hz]; simpl.
  - repeat constructor.
  - destruct (String.leb x z) eqn:Hxz.
    + constructor; [by constructor|]. constructor; [done|].
      eapply Forall_impl; [exact Hz|]. intros y Hy.
      by apply (name_le_trans x z y).
    + constructor; [done|]. apply Forall_forall. intros y Hy.
      apply insert_sorted_elem_of in Hy as [->|Hy].
      * destruct (name_le_total x z) as [H|H]; [|done].
        unfold name_le in H. congruence.
      * by apply (proj1 (Forall_forall _ _) Hz).
Qed.

Lemma sorted_elem_of l y : y ∈ sorted l <-> y ∈ l.
Proof.
  unfold sorted. induction l as [|x l IH]; simpl; [done|].
  rewrite insert_sorted_elem_of, elem_of_cons, IH. tauto.
Qed.

Lemma sorted_sorted l : StronglySorted name_le (sorted l).
Proof.
  unfold sorted. induction l as [|x l IH]; simpl; [constructor|].
  by apply insert_sorted_sorted.
Qed.

Lemma filter_sorted (f : string -> bool) l :
  StronglySorted name_le l -> StronglySorted name_le (List.filter f l).
Proof.
  induction 1 as [|z l Hl IH Hz]; simpl; [constructor|].
  destruct (f z); [|done]. constructor; [done|].
  apply Forall_forall. intros y Hy.
  apply list_elem_of_In, filter_In in Hy as [Hy _].
  apply (proj1 (Forall_forall _ _) Hz). by apply list_elem_of_In.
Qed.

Section Scan.

Variable path_exists : string -> bool.
Variable listdir : string -> result (list string).

(** X5.  When no video is named (no list, or an empty one), the videos
    are found by scanning the directory: they are the paths
    [join video_dir f] of exactly those directory entries [f] whose
    extension is one of the five recognised ones, taken in ascending order
    of file name; which button plays which video is thus fixed by the
    file names. *)
Theorem X5_scanned_videos (a : Args) (names vids : list string) :
  arg_videos a = None \/ arg_videos a = Some [] ->
  listdir (arg_video_dir a) = Ok names ->
  select_videos path_exists listdir a = Ok vids ->
  exists files,
    vids = map (join (arg_video_dir a)) files
    /\ (forall f, f ∈ files <-> f ∈ names /\ is_video f = true)
    /\ StronglySorted name_le files.
Proof.
  intros Hnone Hdir. unfold select_videos, scan_dir. rewrite Hdir. simpl.
  intros Hsel. exists (List.filter is_video (sorted names)).
  split; [|split].
  - destruct Hnone as [->| ->] in Hsel;
      (destruct (map _ _) eqn:Hm in Hsel; [done|]);
      rewrite <- Hm in Hsel; by injection Hsel.
  - intros f. rewrite list_elem_of_In, filter_In, <- list_elem_of_In.
    by rewrite sorted_elem_of.
  - apply filter_sorted, sorted_sorted.
Qed.

(** X6.  A directory that cannot be listed, or that holds no file with a
    recognised extension, makes construction fail when no video is named;
    in the second case with the 'No videos found' error, and in both
    before the playback engine is touched. *)
Theorem X6_empty_scan_fails (a : Args) (w : World) (names : list string) :
  arg_videos a = None \/ arg_videos a = Some [] ->
  listdir (arg_video_dir a) = Ok names ->
  (forall f, f ∈ names -> is_video f = false) ->
  __init__ path_exists listdir a w
  = (Raise (Exception
              ("No videos found in " ++ dquote ++ arg_video_dir a ++ dquote
               ++ ". Please specify a different "
               ++ "directory or filename(s).")), w).
Proof.
  intros Hnone Hdir Hnames. unfold __init__, select_videos, scan_dir.
  rewrite Hdir. simpl.
  assert (List.filter is_video (sorted names) = []) as ->.
  { destruct (List.filter is_video (sorted names)) as [|f fs] eqn:Hf; [done|].
    assert (In f (List.filter is_video (sorted names))) as Hin
        by (rewrite Hf; by left).
    apply filter_In in Hin as [Hin Hv].
    apply list_elem_of_In in Hin.
    apply (proj1 (sorted_elem_of _ _)) in Hin.
    rewrite (Hnames f Hin) in Hv. done. }
  by destruct Hnone as [->| ->].
Qed.

(** X7.  An object the constructor returns satisfies the invariants of
    the data model: it holds the given mapping (the four default pairs
    when none is given), at least one video and no more videos than input
    pins, an idle media player, no active video and no splash process;
    and construction has made exactly two calls, both to the playback
    engine (the instance for the chosen audio route, then the player). *)
Theorem X7_constructed_object (a : Args) (w w' : World) (s : VidLooper) :
  __init__ path_exists listdir a w = (Ok s, w') ->
  gpio_pins s = pins_of a
  /\ (1 <= length (videos s) <= length (gpio_pins s))%nat
  /\ (forall v vs, arg_videos a = Some (v :: vs) -> videos s = v :: vs)
  /\ _player s = Some fresh_player
  /\ _active_vid s = None
  /\ _splashproc s = None
  /\ w' = mkWorld (levels w) (gpio_log w)
            (vlc_log w ++ [Instance_new ("--aout=" ++ arg_audio a);
                           media_player_new])
            (host_log w).
Proof.
  unfold __init__.
  destruct (select_videos path_exists listdir a) as [vids|e] eqn:Hsel;
    [|done].
  destruct (Nat.leb_spec (length vids) (length (pins_of a))) as [Hle|Hgt];
    [|done].
  intros [= <- <-]. simpl. repeat split; try done.
  - unfold select_videos in Hsel.
    destruct (arg_videos a) as [[|v vs]|].
    + destruct (scan_dir _ _) as [[|f fs]|]; simplify_eq/=; lia.
    + destruct (check_videos _ _); simplify_eq/=; lia.
    + destruct (scan_dir _ _) as [[|f fs]|]; simplify_eq/=; lia.
  - intros v vs Hv. unfold select_videos in Hsel. rewrite Hv in Hsel.
    destruct (check_videos _ _); by simplify_eq/=.
Qed.

End Scan.

Lemma X5_scanned_videos_witness :
  exists files,
    ["/home/pi/a.mkv"; "/home/pi/b.mp4"] = map (join "/home/pi") files
    /\ (forall f, f ∈ files
                  <-> f ∈ ["b.mp4"; "notes.txt"; "a.mkv"; ".mp4"]
                      /\ is_video f = true)
    /\ StronglySorted name_le files.
Proof.
  apply (X5_scanned_videos example_exists
           (fun _ => Ok ["b.mp4"; "notes.txt"; "a.mkv"; ".mp4"])
           (example_args None)
           ["b.mp4"; "notes.txt"; "a.mkv"; ".mp4"]
           ["/home/pi/a.mkv"; "/home/pi/b.mp4"]);
    [by left | reflexivity | reflexivity].
Defined.

Lemma X6_empty_scan_fails_witness :
  __init__ example_exists example_listdir (example_args (Some []))
           initial_world
  = (Raise (Exception
              ("No videos found in " ++ dquote ++ "/home/pi" ++ dquote
               ++ ". Please specify a different "
               ++ "directory or filename(s).")), initial_world).
Proof.
  apply (X6_empty_scan_fails example_exists example_listdir
           (example_args (Some [])) initial_world ["notes.txt"]);
    [by right | reflexivity |].
  intros f Hf. apply list_elem_of_singleton in Hf as ->. reflexivity.
Defined.

Lemma X7_constructed_object_witness :
  exists s w',
    __init__ example_exists example_listdir
             (example_args (Some ["A.mp4"; "B.mp4"])) initial_world
    = (Ok s, w')
    /\ videos s = ["A.mp4"; "B.mp4"]
    /\ (1 <= length (videos s) <= length (gpio_pins s))%nat
    /\ vlc_log w' = [Instance_new "--aout=hdmi"; media_player_new].
Proof.
  eexists _, _. split; [reflexivity|].
  destruct (X7_constructed_object example_exists example_listdir
              (example_args (Some ["A.mp4"; "B.mp4"])) initial_world
              _ _ eq_refl) as (_ & Hlen & Hvids & _ & _ & _ & Hw).
  split; [by apply Hvids|]. split; [exact Hlen|]. reflexivity.
Defined.

(* ===================================================================== *)
(** * Further properties: [switch_vid]                                    *)
(* ===================================================================== *)

(** With a player, the branch that starts a session returns normally. *)
Lemma play_video_Some lp f p st :
  _player (self st) = Some p ->
  play_video lp f st = (Ok tt, session_started lp f st).
Proof.
  destruct st as [[] [lv gl vl hl]]. simpl. intros ->.
  unfold session_started, session_calls, session_player.
  destruct lp; cbv -[app String.append]; rewrite <- ?app_assoc; reflexivity.
Qed.

(** Without one, it fails on the first method call on [None]. *)
Lemma play_video_None lp f st :
  _player (self st) = None ->
  fst (play_video lp f st)
  = Raise (AttributeError "'NoneType' object has no attribute 'set_media'").
Proof.
  destruct st as [[] w]. simpl. intros ->. by destruct lp.
Qed.

Lemma index_None pin l : pin ∉ l -> index pin l = None.
Proof.
  induction l as [|x l IH]; intros Hnin; simpl; [done|].
  apply not_elem_of_cons in Hnin as [Hne Hnin].
  destruct (Z.eqb_spec x pin) as [->|_]; [done|]. by rewrite IH.
Qed.

Lemma switch_calls_other_LOW pin (items : dict (option Z)) :
  pin ∉ keys items ->
  Forall writes_only_LOW (concat (map (switch_calls pin) items)).
Proof.
  induction items as [|[i oo] items IH]; simpl; intros Hnin; [constructor|].
  apply not_elem_of_cons in Hnin as [Hne Hnin].
  apply Forall_app. split; [|by apply IH].
  unfold switch_calls. simpl. destruct oo as [o|]; [|constructor].
  destruct (Z.eqb_spec i pin) as [->|_]; [done|]. by repeat constructor.
Qed.

Lemma switch_calls_other_all pin (items : dict (option Z)) o :
  pin ∉ keys items -> o ∈ omap id (values items) ->
  output o LOW ∈ concat (map (switch_calls pin) items).
Proof.
  induction items as [|[i oo] items IH]; intros Hnin Ho.
  - by apply elem_of_nil in Ho.
  - simpl in Hnin. apply not_elem_of_cons in Hnin as [Hne Hnin].
    rewrite outs_cons in Ho. simpl. apply elem_of_app.
    unfold switch_calls at 1. simpl. destruct oo as [o'|].
    + apply elem_of_cons in Ho as [->|Ho]; [|right; by apply IH].
      left. destruct (Z.eqb_spec i pin) as [->|_]; [done|]. left.
    + right. by apply IH.
Qed.

Lemma contains_keys {V} k (d : dict V) : k ∈ keys d -> contains k d = true.
Proof.
  unfold contains, keys. intros Hin.
  apply existsb_exists. exists k. split; [by apply list_elem_of_In|].
  apply Z.eqb_refl.
Qed.

(** The input pin of the [k]-th pair is registered, at position [k]. *)
Lemma index_of_pair {V} (d : dict V) (k : nat) (pin : Z) (o : V) :
  dict_wf d -> d !! k = Some (pin, o) ->
  index pin (keys d) = Some k /\ contains pin d = true.
Proof.
  intros Hwf Hk.
  assert (keys d !! k = Some pin) as Hkey.
  { unfold keys. change (map fst d) with (fst <$> d).
    unfold dict in Hk. by rewrite list_lookup_fmap, Hk. }
  split.
  - by apply index_lookup_NoDup.
  - apply contains_keys. eapply list_elem_of_lookup_2. exact Hkey.
Qed.

(** X8.  In a well-formed mapping, a press of the pin of the [k]-th pair
    plays the [k]-th video: when that video is not the active one, or
    restart-on-press is set, the call returns normally, prints the name,
    stops the running session before the new media is created, loads it
    and plays it, adds the repeat option exactly when looping is on, and
    records the video as the active one.  The pins are left as the loop
    over the pairs wrote them. *)
Theorem X8_press_starts_session (pin : Z) (k : nat) (o : option Z)
        (v : string) (p : MediaPlayer) (st : St) :
  dict_wf (gpio_pins (self st)) ->
  gpio_pins (self st) !! k = Some (pin, o) ->
  videos (self st) !! k = Some v ->
  _player (self st) = Some p ->
  _active_vid (self st) <> Some v \/ restart_on_press (self st) = true ->
  exists st',
    switch_vid pin st = (Ok tt, st')
    /\ _active_vid (self st') = Some v
    /\ _player (self st')
       = Some (mkPlayer
                 (Some (mkMedia v (if loop (self st)
                                   then ["input-repeat=-1"] else [])))
                 Playing)
    /\ vlc_log (world st')
       = (vlc_log (world st)
          ++ [stop; media_new v; set_media (mkMedia v []); play]
          ++ (if loop (self st)
              then [set_media (mkMedia v []); add_option "input-repeat=-1"]
              else []))%list
    /\ host_log (world st') = (host_log (world st) ++ [Host.print v])%list
    /\ levels (world st')
       = switch_levels pin (gpio_pins (self st)) (levels (world st)).
Proof.
  intros Hwf Hk Hv Hp Hnew.
  destruct (index_of_pair _ _ _ _ Hwf Hk) as [Hidx _].
  fold (in_pins (self st)) in Hidx.
  rewrite switch_vid_eq, Hidx, Hv.
  assert (negb (bool_decide (Some v = _active_vid (self st)))
          || restart_on_press (self st) = true) as ->.
  { destruct Hnew as [Hne| ->]; [|apply orb_true_r].
    rewrite bool_decide_eq_false_2; [done|]. congruence. }
  rewrite (play_video_Some _ _ p) by exact Hp.
  eexists. split; [reflexivity|]. repeat split.
Qed.

Lemma X8_press_starts_session_witness :
  exists st',
    switch_vid 22 example_state = (Ok tt, st')
    /\ _active_vid (self st') = Some "B.mp4"
    /\ _player (self st')
       = Some (mkPlayer (Some (mkMedia "B.mp4" ["input-repeat=-1"])) Playing)
    /\ vlc_log (world st')
       = [stop; media_new "B.mp4"; set_media (mkMedia "B.mp4" []); play;
          set_media (mkMedia "B.mp4" []); add_option "input-repeat=-1"]
    /\ host_log (world st') = [Host.print "B.mp4"]
    /\ levels (world st')
       = switch_levels 22 (gpio_pins (self example_state))
           (levels (world example_state)).
Proof.
  apply (X8_press_starts_session 22 1%nat None "B.mp4"
           (mkPlayer (Some (mkMedia "A.mp4" ["input-repeat=-1"])) Playing)
           example_state).
  - unfold dict_wf. simpl. apply NoDup_cons. split.
    + intros Hin. apply list_elem_of_singleton in Hin. discriminate Hin.
    + apply NoDup_singleton.
  - reflexivity.
  - reflexivity.
  - reflexivity.
  - left. discriminate.
Defined.

(** X9.  [switch_vid] on a pin that is no pair's input pin has no check
    of its own: it first drives every configured output LOW, and then
    fails with the [ValueError] of [tuple.index]; the object is left as
    it was and nothing reaches the playback engine or the host. *)
Theorem X9_unregistered_pin (pin : Z) (st : St) :
  pin ∉ in_pins (self st) ->
  exists st',
    switch_vid pin st
    = (Raise (ValueError "tuple.index(x): x not in tuple"), st')
    /\ self st' = self st
    /\ (forall o, o ∈ out_pins (self st) ->
                  levels (world st') !! o = Some LOW)
    /\ vlc_log (world st') = vlc_log (world st)
    /\ host_log (world st') = host_log (world st).
Proof.
  intros Hnin. rewrite switch_vid_eq, (index_None _ _ Hnin).
  eexists. split; [reflexivity|]. split; [reflexivity|].
  split; [|by split].
  intros o Ho. simpl. apply drive_all_LOW.
  - by apply switch_calls_other_LOW.
  - by apply switch_calls_other_all.
Qed.

Lemma X9_unregistered_pin_witness :
  exists st',
    switch_vid 5 example_state
    = (Raise (ValueError "tuple.index(x): x not in tuple"), st')
    /\ self st' = self example_state
    /\ (forall o, o ∈ out_pins (self example_state) ->
                  levels (world st') !! o = Some LOW)
    /\ vlc_log (world st') = vlc_log (world example_state)
    /\ host_log (world st') = host_log (world example_state).
Proof.
  apply (X9_unregistered_pin 5 example_state).
  intros Hin. simpl in Hin.
  apply elem_of_cons in Hin as [Heq|Hin]; [discriminate Heq|].
  apply list_elem_of_singleton in Hin. discriminate Hin.
Defined.

(** X10.  With restart-on-press off, a press that has returned normally
    makes the same press a no-op: repeated at once it returns normally,
    leaves the object and every pin level as they are and sends nothing
    to the playback engine or the host.  This holds for any mapping, also
    one in which pairs share an output pin. *)
Theorem X10_repeated_press_is_noop (pin : Z) (st st1 : St) :
  restart_on_press (self st) = false ->
  switch_vid pin st = (Ok tt, st1) ->
  exists st2,
    switch_vid pin st1 = (Ok tt, st2)
    /\ self st2 = self st1
    /\ levels (world st2) = levels (world st1)
    /\ vlc_log (world st2) = vlc_log (world st1)
    /\ host_log (world st2) = host_log (world st1).
Proof.
  intros Hrestart. rewrite switch_vid_eq.
  destruct (index pin (in_pins (self st))) as [k|] eqn:Hidx; [|done].
  destruct (videos (self st) !! k) as [f|] eqn:Hvid; [|done].
  rewrite Hrestart, orb_false_r.
  assert (forall s1 w1,
             gpio_pins s1 = gpio_pins (self st) -> videos s1 = videos (self st)
             -> restart_on_press s1 = false -> _active_vid s1 = Some f
             -> levels w1
                = switch_levels pin (gpio_pins (self st)) (levels (world st))
             -> exists st2,
               switch_vid pin (mkSt s1 w1) = (Ok tt, st2)
               /\ self st2 = s1
               /\ levels (world st2) = levels w1
               /\ vlc_log (world st2) = vlc_log w1
               /\ host_log (world st2) = host_log w1) as Hagain.
  { intros s1 w1 Hpins Hvids Hr Ha Hlv. rewrite switch_vid_eq.
    unfold in_pins in *. cbn [self world]. rewrite Hpins, Hidx, Hvids, Hvid.
    rewrite Ha, Hr, bool_decide_eq_true_2 by done. simpl.
    eexists. split; [reflexivity|]. split; [reflexivity|].
    split; [|by split]. simpl. fold (switch_levels pin (gpio_pins s1) (levels w1)).
    rewrite Hpins, Hlv. apply switch_levels_idem. }
  destruct (bool_decide (Some f = _active_vid (self st))) eqn:Hact; simpl.
  - apply bool_decide_eq_true_1 in Hact. intros [= <-].
    apply Hagain; try done.
  - destruct (_player (self st)) as [p|] eqn:Hp.
    + rewrite (play_video_Some _ _ p) by exact Hp. intros [= <-].
      apply Hagain; try done.
    + intros Hplay. exfalso.
      pose proof (play_video_None (loop (self st)) f (outputs_written pin st) Hp)
        as Hnone.
      rewrite Hplay in Hnone. discriminate Hnone.
Qed.

Lemma X10_repeated_press_is_noop_witness :
  exists st2,
    switch_vid 17 (snd (switch_vid 17 shared_led)) = (Ok tt, st2)
    /\ self st2 = self (snd (switch_vid 17 shared_led))
    /\ levels (world st2) = levels (world (snd (switch_vid 17 shared_led)))
    /\ vlc_log (world st2) = vlc_log (world (snd (switch_vid 17 shared_led)))
    /\ host_log (world st2)
       = host_log (world (snd (switch_vid 17 shared_led))).
Proof.
  apply (X10_repeated_press_is_noop 17 shared_led
           (snd (switch_vid 17 shared_led)));
    [reflexivity | vm_compute; reflexivity].
Defined.

(* ===================================================================== *)
(** * Further properties: the session and the teardown                    *)
(* ===================================================================== *)

Lemma switch_vid_consistent pin st :
  session_consistent (self st) ->
  session_consistent (self (snd (switch_vid pin st))).
Proof.
  intros (p & Hp & Hact). rewrite switch_vid_eq.
  destruct (index pin (in_pins (self st))) as [k|]; [|by exists p].
  destruct (videos (self st) !! k) as [f|] eqn:Hvid; [|by exists p].
  destruct (negb _ || _); [|by exists p].
  rewrite (play_video_Some _ _ p) by exact Hp.
  eexists. split; [reflexivity|]. simpl. intros v [= <-].
  split; [|done]. eapply list_elem_of_lookup_2. exact Hvid.
Qed.

Lemma start_setup_consistent st st' :
  session_consistent (self st) ->
  start_setup st = (Ok tt, st') ->
  session_consistent (self st').
Proof.
  intros Hc. rewrite start_setup_eq.
  destruct (autostart (self st)); [|by intros [= <-]].
  destruct (splash (self st)); [done|].
  destruct (head (in_pins (self st))) as [first|]; [|done].
  pose proof (switch_vid_consistent first (pins_set_up st) Hc) as Hc'.
  destruct (switch_vid first (pins_set_up st)) as [[[]|e] st1]; [|done].
  by intros [= <-].
Qed.

Lemma poll_iteration_consistent st :
  session_consistent (self st) ->
  session_consistent (self (snd (poll_iteration st))).
Proof.
  intros Hc. rewrite poll_iteration_eq. simpl.
  destruct (loop (self st)); [done|].
  destruct Hc as (p & Hp & Hact). rewrite Hp.
  destruct (bool_decide (state p = Ended)); [|by exists p].
  exists p. split; [exact Hp|]. simpl. done.
Qed.

Lemma engine_reports_consistent e st :
  session_consistent (self st) ->
  session_consistent (self (engine_reports e st)).
Proof.
  intros (p & Hp & Hact). unfold engine_reports. rewrite Hp.
  eexists. split; [reflexivity|]. exact Hact.
Qed.

(** X11.  Throughout a run of a constructed looper -- after [start] has
    set up, under any presses of registered pins, idle polls and engine
    reports -- the object has a player, and the active-video record, when
    it names a video, names one of the video list that is the media the
    player holds.  So no method call on the player ever meets [None]. *)
Theorem X11_active_video_is_loaded
        (path_exists : string -> bool)
        (listdir : string -> result (list string))
        (a : Args) (w w' : World) (s : VidLooper) (st : St) :
  __init__ path_exists listdir a w = (Ok s, w') ->
  reachable (mkSt s w') st ->
  session_consistent (self st).
Proof.
  intros Hinit Hreach.
  assert (session_consistent s) as Hs.
  { unfold __init__ in Hinit.
    destruct (select_videos path_exists listdir a) as [vids|e]; [|done].
    destruct (Nat.leb _ _); [|done].
    injection Hinit as <- _. eexists. split; [reflexivity|]. done. }
  induction Hreach as [st Hstart|st pin r st' _ IH _ Hswitch
                       |st r st' _ IH Hpoll|st e _ IH].
  - by apply (start_setup_consistent (mkSt s w')).
  - replace st' with (snd (switch_vid pin st)) by (by rewrite Hswitch).
    by apply switch_vid_consistent.
  - replace st' with (snd (poll_iteration st)) by (by rewrite Hpoll).
    by apply poll_iteration_consistent.
  - by apply engine_reports_consistent.
Qed.

Lemma X11_active_video_is_loaded_witness :
  session_consistent
    (self (snd (start_setup
                  (mkSt (self example_fresh) (world example_fresh))))).
Proof.
  apply (X11_active_video_is_loaded (fun _ => true) (fun _ => Ok [])
           (mkArgs "hdmi" true false "/home/pi" (Some ["A.mp4"; "B.mp4"])
              (Some [(17, Some 27); (22, None)]) true false None None false)
           initial_world (world example_fresh) (self example_fresh)).
  - reflexivity.
  - apply reach_start. vm_compute. reflexivity.
Defined.

(** X15.  With looping and restart-on-press off, once the active video
    has ended a press of its own button is ignored until the idle loop
    has seen the end: pressed before the next poll, the player stays
    ended and nothing reaches the engine; pressed after it, the video is
    started afresh. *)
Theorem X15_press_after_end (pin : Z) (k : nat) (o : option Z)
        (v : string) (p : MediaPlayer) (st : St) :
  dict_wf (gpio_pins (self st)) ->
  gpio_pins (self st) !! k = Some (pin, o) ->
  videos (self st) !! k = Some v ->
  loop (self st) = false ->
  restart_on_press (self st) = false ->
  _active_vid (self st) = Some v ->
  _player (self st) = Some p ->
  state p = Ended ->
  (self (idle_loop [Press pin] st) = self st
   /\ vlc_log (world (idle_loop [Press pin] st)) = vlc_log (world st))
  /\ (_active_vid (self (idle_loop [Poll; Press pin] st)) = Some v
      /\ _player (self (idle_loop [Poll; Press pin] st))
         = Some (mkPlayer (Some (mkMedia v [])) Playing)
      /\ vlc_log (world (idle_loop [Poll; Press pin] st))
         = (vlc_log (world st)
            ++ [stop; media_new v; set_media (mkMedia v []); play])%list).
Proof.
  intros Hwf Hk Hv Hloop Hrestart Hact Hp Hended.
  destruct (index_of_pair _ _ _ _ Hwf Hk) as [Hidx Hreg].
  fold (in_pins (self st)) in Hidx.
  split.
  - simpl. rewrite Hreg. unfold in_callback.
    rewrite switch_vid_eq, Hidx, Hv, Hact, Hrestart.
    rewrite bool_decide_eq_true_2 by done. done.
  - simpl. rewrite poll_iteration_eq, Hloop, Hp.
    rewrite bool_decide_eq_true_2 by done. cbn [snd].
    change (gpio_pins (self (outputs_reset st))) with (gpio_pins (self st)).
    rewrite Hreg. unfold in_callback.
    rewrite switch_vid_eq.
    change (in_pins (self (outputs_reset st))) with (in_pins (self st)).
    change (videos (self (outputs_reset st))) with (videos (self st)).
    rewrite Hidx, Hv. simpl.
    rewrite (play_video_Some _ _ p) by exact Hp.
    simpl. rewrite Hloop. done.
Qed.

Lemma X15_press_after_end_witness :
  (self (idle_loop [Press 17] example_ended) = self example_ended
   /\ vlc_log (world (idle_loop [Press 17] example_ended)) = [])
  /\ (_active_vid (self (idle_loop [Poll; Press 17] example_ended))
      = Some "A.mp4"
      /\ _player (self (idle_loop [Poll; Press 17] example_ended))
         = Some (mkPlayer (Some (mkMedia "A.mp4" [])) Playing)
      /\ vlc_log (world (idle_loop [Poll; Press 17] example_ended))
         = [stop; media_new "A.mp4"; set_media (mkMedia "A.mp4" []); play]).
Proof.
  apply (X15_press_after_end 17 0%nat (Some 27) "A.mp4"
           (mkPlayer (Some (mkMedia "A.mp4" [])) Ended) example_ended);
    try reflexivity.
  unfold dict_wf. simpl. apply NoDup_cons. split.
  - intros Hin. apply list_elem_of_singleton in Hin. discriminate Hin.
  - apply NoDup_singleton.
Defined.

Lemma del_eq st :
  __del__ st
  = (Ok tt,
     mkSt (set_player (do_stop <$> _player (self st)) (self st))
          (mkWorld ∅ (gpio_log (world st) ++ [cleanup])
             (vlc_log (world st) ++ teardown_vlc_calls (self st))
             (host_log (world st) ++ teardown_host_calls (self st)))).
Proof.
  destruct st as [[] [lv gl vl hl]].
  unfold teardown_vlc_calls, teardown_host_calls.
  destruct debug0, _player0, _splashproc0;
    cbv -[app String.append]; rewrite ?app_nil_r, <- ?app_assoc;
    reflexivity.
Qed.

Lemma getattr_assigned assigned name :
  name ∈ assigned -> getattr assigned name = Ok tt.
Proof.
  intros Hin. unfold getattr.
  assert (existsb (String.eqb name) assigned = true) as ->; [|done].
  apply existsb_exists. exists name. split; [by apply list_elem_of_In|].
  apply String.eqb_refl.
Qed.

Lemma getattr_debug_missing assigned :
  "debug" ∉ assigned ->
  getattr assigned "debug"
  = Raise (AttributeError "'VidLooper' object has no attribute 'debug'").
Proof.
  intros Hnin. unfold getattr.
  assert (existsb (String.eqb "debug") assigned = false) as ->; [|done].
  apply not_true_is_false. intros Hex.
  apply existsb_exists in Hex as (x & Hx & Heq).
  apply String.eqb_eq in Heq as <-. by apply Hnin, list_elem_of_In.
Qed.

(** On a fully built object the finalizer is [__del__]. *)
Lemma finalize_built assigned st :
  (forall name, name ∈ instance_attributes -> name ∈ assigned) ->
  finalize assigned st = __del__ st.
Proof.
  intros Hall. unfold finalize.
  rewrite !getattr_assigned
    by (apply Hall; unfold instance_attributes;
        repeat first [left; reflexivity | right]).
  destruct st as [[] [lv gl vl hl]].
  destruct debug0, _player0, _splashproc0; reflexivity.
Qed.

(** X12.  On a fully built looper, whatever state it is in, teardown
    never raises: it shows the cursor again unless debugging, releases
    the pins, stops the player when there is one and kills the process
    group of the splash viewer when one is recorded; run a second time on
    an object without a splash process it returns normally again and
    leaves the object and the pin levels as the first run left them.  On
    the object a failed construction leaves, teardown raises
    [AttributeError] on its first line -- [debug] is assigned only after
    every raise of [__init__] -- and so makes no call at all: the pins
    are not released. *)
Theorem X12_teardown (assigned : list string) (st : St) :
  ((forall name, name ∈ instance_attributes -> name ∈ assigned) ->
   exists st',
     finalize assigned st = (Ok tt, st')
     /\ __del__ st = (Ok tt, st')
     /\ levels (world st') = ∅
     /\ last (gpio_log (world st')) = Some cleanup
     /\ _player (self st') = do_stop <$> _player (self st)
     /\ vlc_log (world st')
        = (vlc_log (world st) ++ teardown_vlc_calls (self st))%list
     /\ host_log (world st')
        = (host_log (world st) ++ teardown_host_calls (self st))%list
     /\ (_splashproc (self st) = None ->
         exists st'',
           finalize assigned st' = (Ok tt, st'')
           /\ self st'' = self st'
           /\ levels (world st'') = levels (world st')))
  /\ ("debug" ∉ assigned ->
      finalize assigned st
      = (Raise (AttributeError "'VidLooper' object has no attribute 'debug'"),
         st))
  /\ (forall path_exists listdir a w e w',
        __init__ path_exists listdir a w = (Raise e, w') ->
        finalize (attributes_after_failure listdir a) (mkSt (self st) w')
        = (Raise (AttributeError
                    "'VidLooper' object has no attribute 'debug'"),
           mkSt (self st) w')).
Proof.
  assert (forall assigned' st',
             "debug" ∉ assigned' ->
             finalize assigned' st'
             = (Raise (AttributeError
                         "'VidLooper' object has no attribute 'debug'"),
                st')) as Hmissing.
  { intros assigned' st' Hnin. unfold finalize.
    unfold mbind, M_bind, of_result.
    by rewrite (getattr_debug_missing _ Hnin). }
  split; [|split].
  - intros Hall. rewrite (finalize_built _ _ Hall), del_eq.
    eexists. split; [reflexivity|]. split; [reflexivity|].
    cbn [world self levels].
    split; [done|]. split; [apply last_snoc|]. repeat (split; [done|]).
    intros _. rewrite (finalize_built _ _ Hall), del_eq.
    eexists. split; [reflexivity|].
    split; [|done]. cbn [self]. destruct st as [[] w]. simpl.
    by destruct _player0.
  - apply Hmissing.
  - intros path_exists listdir a w e w' _. apply Hmissing.
    unfold attributes_after_failure. intros Hin.
    apply elem_of_app in Hin as [Hin|Hin].
    + apply elem_of_cons in Hin as [Heq|Hin]; [discriminate Heq|].
      apply list_elem_of_singleton in Hin. discriminate Hin.
    + destruct (arg_videos a) as [[|v vs]|];
        try destruct (listdir (arg_video_dir a));
        first [ by apply elem_of_nil in Hin
              | apply list_elem_of_singleton in Hin; discriminate Hin ].
Qed.

Lemma X12_teardown_witness :
  (exists st',
      finalize instance_attributes example_state = (Ok tt, st')
      /\ levels (world st') = ∅
      /\ exists st'',
           finalize instance_attributes st' = (Ok tt, st'')
           /\ self st'' = self st'
           /\ levels (world st'') = levels (world st'))
  /\ finalize (attributes_after_failure example_listdir example_missing_args)
        (mkSt (self example_state) initial_world)
      = (Raise (AttributeError "'VidLooper' object has no attribute 'debug'"),
         mkSt (self example_state) initial_world).
Proof.
  destruct (X12_teardown instance_attributes example_state)
    as (Hbuilt & _ & Hfailed).
  split.
  - destruct Hbuilt as (st' & Hfin & _ & Hlv & _ & _ & _ & _ & Hagain);
      [done|].
    exists st'. split; [exact Hfin|]. split; [exact Hlv|].
    apply Hagain. reflexivity.
  - apply (Hfailed example_exists example_listdir example_missing_args
             initial_world
             (FileNotFoundError
                ("Video " ++ dquote ++ "C.mp4" ++ dquote ++ " not found"))
             initial_world).
    reflexivity.
Defined.

(* ===================================================================== *)
(** * Further properties: what a run never does                           *)
(* ===================================================================== *)

Lemma kq_ret {A} (a : A) : keeps_quiet (mret a).
Proof. by intros st. Qed.

Lemma kq_raise {A} e : keeps_quiet (@raise A e).
Proof. by intros st. Qed.

Lemma kq_of_option {A} (o : option A) e : keeps_quiet (of_option o e).
Proof. destruct o; by intros st. Qed.

Lemma kq_of_result {A} (r : result A) : keeps_quiet (of_result r).
Proof. by intros st. Qed.

Lemma kq_get_self : keeps_quiet get_self.
Proof. by intros st. Qed.

Lemma kq_gpio c : keeps_quiet (gpio c).
Proof. by intros st. Qed.

Lemma kq_vlc c : keeps_quiet (vlc c).
Proof. by intros st. Qed.

Lemma kq_host c : harmless c -> keeps_quiet (host c).
Proof.
  intros Hc st [Hs Hh]. split; [exact Hs|]. simpl.
  apply Forall_app. split; [exact Hh|]. by constructor.
Qed.

Lemma kq_modify_self f :
  (forall s, _splashproc (f s) = _splashproc s) ->
  keeps_quiet (modify_self f).
Proof. intros Hf st [Hs Hh]. split; [|exact Hh]. simpl. by rewrite Hf. Qed.

Lemma kq_bind {A B} (m : M A) (k : A -> M B) :
  keeps_quiet m -> (forall a, keeps_quiet (k a)) -> keeps_quiet (m ≫= k).
Proof.
  intros Hm Hk st Hq. unfold mbind, M_bind.
  specialize (Hm st Hq). destruct (m st) as [[a|e] st']; simpl in *.
  - by apply Hk.
  - exact Hm.
Qed.

Lemma kq_for_each {A} (l : list A) (body : A -> M unit) :
  (forall x, keeps_quiet (body x)) -> keeps_quiet (for_each l body).
Proof.
  intros Hbody. induction l as [|x l IH]; simpl.
  - apply kq_ret.
  - apply kq_bind; [apply Hbody|]. intros _. exact IH.
Qed.

(** A name the module does not bind: what follows its use is not run. *)
Lemma kq_unbound {A} name e (k : unit -> M A) :
  lookup_name module_globals builtins name = Raise e ->
  keeps_quiet (of_result (lookup_name module_globals builtins name) ≫= k).
Proof.
  intros Hname st Hq. unfold mbind, M_bind, of_result. by rewrite Hname.
Qed.

Create HintDb kq discriminated.
#[local] Hint Resolve kq_ret kq_raise kq_of_option kq_of_result kq_get_self
  kq_gpio kq_vlc : kq.

Ltac kq_step :=
  first [ solve [auto with kq]
        | apply kq_host; exact I
        | apply kq_modify_self; solve [done]
        | apply kq_for_each; intros ?
        | apply kq_bind; [|intros ?] ].

Lemma kq_on_player name c f : keeps_quiet (on_player name c f).
Proof.
  unfold on_player. apply kq_bind; [auto with kq|]. intros s.
  destruct (_player s); repeat kq_step.
Qed.
#[local] Hint Resolve kq_on_player : kq.

Lemma kq_kill_process : keeps_quiet _kill_process.
Proof.
  unfold _kill_process. apply kq_bind; [auto with kq|]. intros s.
  destruct (_player s); auto with kq.
Qed.
#[local] Hint Resolve kq_kill_process : kq.

Lemma kq_switch_vid pin : keeps_quiet (switch_vid pin).
Proof.
  unfold switch_vid. apply kq_bind; [auto with kq|]. intros s.
  apply kq_bind.
  { apply kq_for_each. intros [i [o|]]; auto with kq. }
  intros _. apply kq_bind; [auto with kq|]. intros k.
  apply kq_bind; [auto with kq|]. intros filename.
  destruct (negb _ || _); [|auto with kq].
  repeat kq_step. destruct (loop s); repeat kq_step.
Qed.
#[local] Hint Resolve kq_switch_vid : kq.

Lemma kq_shutdown_callback : keeps_quiet shutdown_callback.
Proof.
  unfold shutdown_callback.
  by apply (kq_unbound "call" (NameError "name 'call' is not defined")).
Qed.

Lemma kq_poll_iteration : keeps_quiet poll_iteration.
Proof.
  unfold poll_iteration. apply kq_bind; [auto with kq|]. intros s.
  destruct (loop s); [auto with kq|].
  destruct (_player s) as [p|]; [|auto with kq].
  destruct (bool_decide (state p = Ended)); [|auto with kq].
  apply kq_bind.
  - apply kq_for_each. intros [o|]; auto with kq.
  - intros _. by apply kq_modify_self.
Qed.

Lemma kq_start_setup : keeps_quiet start_setup.
Proof.
  unfold start_setup. apply kq_bind; [auto with kq|]. intros s.
  apply kq_bind.
  { destruct (debug s); repeat kq_step. }
  intros _. apply kq_bind; [auto with kq|]. intros _.
  apply kq_bind.
  { apply kq_for_each. intros [i [o|]]; repeat kq_step. }
  intros _. apply kq_bind.
  { destruct (shutdown_configured s); repeat kq_step. }
  intros _. apply kq_bind.
  { destruct (autostart s); [|auto with kq].
    destruct (splash s) as [image|]; [|repeat kq_step].
    by apply (kq_unbound "Popen" (NameError "name 'Popen' is not defined")). }
  intros _. repeat kq_step.
Qed.

(** Teardown signals no process when none is recorded. *)
Lemma kq_del : keeps_quiet __del__.
Proof.
  intros st Hq. rewrite del_eq. destruct Hq as [Hs Hh].
  split; [exact Hs|]. cbn [world self host_log].
  apply Forall_app. split; [exact Hh|].
  unfold teardown_host_calls. rewrite Hs, app_nil_r.
  destruct (debug (self st)); by repeat constructor.
Qed.

Lemma quiet_in_callback (m : M unit) st :
  keeps_quiet m -> quiet st -> quiet (in_callback m st).
Proof.
  intros Hm Hq. unfold in_callback. specialize (Hm st Hq).
  destruct (m st) as [[[]|e] st']; simpl in *; [exact Hm|].
  by apply (kq_host (Host.traceback e) I st').
Qed.

Lemma quiet_deliver ev st : quiet st -> quiet (deliver ev st).
Proof.
  intros Hq. destruct ev as [pin| | |e|]; simpl.
  - destruct (contains pin (gpio_pins (self st))); [|exact Hq].
    by apply quiet_in_callback; [apply kq_switch_vid|].
  - destruct (shutdown_configured (self st)); [|exact Hq].
    by apply quiet_in_callback; [apply kq_shutdown_callback|].
  - by apply kq_poll_iteration.
  - unfold engine_reports. by destruct (_player (self st)).
  - exact Hq.
Qed.

Lemma quiet_idle_loop evs st : quiet st -> quiet (idle_loop evs st).
Proof.
  revert st. induction evs as [|ev evs IH]; intros st Hq; [exact Hq|].
  destruct ev; simpl;
    try (apply IH;
         first [ apply (quiet_deliver (Press _))
               | apply (quiet_deliver ShutdownEdge)
               | apply (quiet_deliver Poll)
               | apply (quiet_deliver (EngineReports _)) ]; exact Hq).
  by apply kq_del.
Qed.

(** X13.  No run of the program launches the splash viewer, runs the
    shutdown command or signals a process group: whatever the disk, the
    arguments and the events (presses, edges on the shutdown pin, polls,
    engine reports, an interrupt), the host only ever sees terminal
    commands, printed lines and tracebacks, and no splash process is ever
    recorded. *)
Theorem X13_no_process_call_in_any_run
        (path_exists : string -> bool)
        (listdir : string -> result (list string))
        (a : Args) (evs : list event) (w : World) :
  Forall harmless (host_log w) ->
  outcome_quiet (program path_exists listdir a evs w).
Proof.
  intros Hw. unfold program, __init__.
  destruct (select_videos path_exists listdir a) as [vids|e]; [|exact Hw].
  destruct (Nat.leb _ _); [|exact Hw].
  match goal with
  | |- context [start evs ?st0] =>
      assert (quiet st0) as Hq by (split; [reflexivity|exact Hw]);
      generalize dependent st0
  end.
  intros st0 Hq. unfold start.
  pose proof (kq_start_setup st0 Hq) as Hsetup.
  destruct (start_setup st0) as [[[]|e] st']; simpl in *.
  - by apply quiet_idle_loop.
  - exact Hsetup.
Qed.

Lemma X13_no_process_call_in_any_run_witness :
  outcome_quiet
    (program (fun _ => true) (fun _ => Ok [])
       (mkArgs "hdmi" true false "/home/pi" (Some ["A.mp4"]) None true false
          (Some 3) (Some "splash.png") false)
       [ShutdownEdge; Press 26; Interrupt] initial_world).
Proof.
  apply (X13_no_process_call_in_any_run (fun _ => true) (fun _ => Ok [])).
  constructor.
Defined.

(* ===================================================================== *)
(** * Further properties: the shutdown pin                                *)
(* ===================================================================== *)

Lemma play_video_gpio_log lp f st :
  gpio_log (world (snd (play_video lp f st))) = gpio_log (world st).
Proof. destruct st as [[] w]. destruct _player0, lp; reflexivity. Qed.

Lemma switch_vid_gpio_log pin st :
  gpio_log (world (snd (switch_vid pin st)))
  = (gpio_log (world st)
     ++ concat (map (switch_calls pin) (gpio_pins (self st))))%list.
Proof.
  rewrite switch_vid_eq.
  destruct (index _ _); [|reflexivity].
  destruct (_ !! _); [|reflexivity].
  destruct (_ || _); [|reflexivity].
  by rewrite play_video_gpio_log.
Qed.

Lemma Forall_concat_map {A B} (P : B -> Prop) (f : A -> list B) l :
  (forall x, Forall P (f x)) -> Forall P (concat (map f l)).
Proof.
  intros Hf. induction l as [|x l IH]; simpl; [constructor|].
  apply Forall_app. split; [apply Hf|exact IH].
Qed.

Lemma switch_calls_no_shutdown pin items :
  Forall (fun c => ~ is_shutdown_detect c)
         (concat (map (switch_calls pin) items)).
Proof.
  apply Forall_concat_map. intros [i [o|]]; unfold switch_calls; simpl.
  - constructor; [|constructor]. by intros [].
  - constructor.
Qed.

Lemma detect_calls_no_shutdown pins :
  Forall (fun c => ~ is_shutdown_detect c) (concat (map detect_calls pins)).
Proof.
  apply Forall_concat_map. intros pin. constructor; [|constructor].
  by intros [].
Qed.

Lemma setup_calls_no_shutdown items :
  Forall (fun c => ~ is_shutdown_detect c) (concat (map setup_calls items)).
Proof.
  apply Forall_concat_map. intros [i [o|]]; unfold setup_calls; simpl;
    repeat (constructor; [by intros []|]); constructor.
Qed.

(** The GPIO calls of [start], up to the idle loop: the pin setup, then
    calls none of which registers the shutdown callback. *)
Lemma start_setup_gpio_log st :
  exists rest,
    gpio_log (world (snd (start_setup st)))
    = (gpio_log (world st) ++ pin_setup_calls (self st) ++ rest)%list
    /\ Forall (fun c => ~ is_shutdown_detect c) rest.
Proof.
  rewrite start_setup_eq.
  assert (gpio_log (world (pins_set_up st))
          = (gpio_log (world st) ++ pin_setup_calls (self st) ++ [])%list)
    as Hsetup by (by rewrite app_nil_r).
  destruct (autostart (self st)).
  - destruct (splash (self st)); [exists []; by split|].
    destruct (head (in_pins (self st))) as [first|]; [|exists []; by split].
    pose proof (switch_vid_gpio_log first (pins_set_up st)) as Hlog.
    rewrite Hsetup, app_nil_r in Hlog.
    change (gpio_pins (self (pins_set_up st))) with (gpio_pins (self st))
      in Hlog.
    destruct (switch_vid first (pins_set_up st)) as [[[]|e] st'];
      cbn [snd] in *.
    + exists (concat (map (switch_calls first) (gpio_pins (self st)))
              ++ concat (map detect_calls (in_pins (self st))))%list.
      split.
      * cbn [world gpio_log apply_gpio]. rewrite Hlog.
        by rewrite <- !app_assoc.
      * apply Forall_app. split;
          [apply switch_calls_no_shutdown|apply detect_calls_no_shutdown].
    + exists (concat (map (switch_calls first) (gpio_pins (self st)))).
      split.
      * rewrite Hlog. by rewrite <- !app_assoc.
      * apply switch_calls_no_shutdown.
  - exists (concat (map detect_calls (in_pins (self st)))). split.
    + cbn [snd callbacks_registered world gpio_log apply_gpio].
      change (in_pins (self (pins_set_up st))) with (in_pins (self st)).
      rewrite Hsetup, app_nil_r. by rewrite <- !app_assoc.
    + apply detect_calls_no_shutdown.
Qed.

(** X14.  [start] registers the shutdown callback exactly when a shutdown
    pin other than 0 is configured, on that pin and with the 200 ms
    bounce time; a shutdown pin given as 0 is taken for none, and no
    callback is registered for it. *)
Theorem X14_shutdown_callback_registered (st : St) (q b : Z) :
  Forall (fun c => ~ is_shutdown_detect c) (gpio_log (world st)) ->
  add_event_detect_FALLING q shutdown_handler b
    ∈ gpio_log (world (snd (start_setup st)))
  <-> shutdown_pin (self st) = Some q /\ q <> 0 /\ b = 200.
Proof.
  intros Hfresh.
  destruct (start_setup_gpio_log st) as (rest & -> & Hrest).
  assert (forall l, Forall (fun c => ~ is_shutdown_detect c) l ->
                    add_event_detect_FALLING q shutdown_handler b ∉ l)
    as Hnone.
  { intros l Hl Hin. by apply (proj1 (Forall_forall _ _) Hl _ Hin). }
  unfold pin_setup_calls, shutdown_configured.
  rewrite !elem_of_app, elem_of_cons, elem_of_app. split.
  - intros [Hin|[[Hin|[Hin|Hin]]|Hin]].
    + by destruct (Hnone _ Hfresh).
    + discriminate Hin.
    + by destruct (Hnone _ (setup_calls_no_shutdown (gpio_pins (self st)))).
    + destruct (shutdown_pin (self st)) as [p|];
        [|by apply elem_of_nil in Hin].
      destruct (Z.eqb_spec p 0) as [Hz|Hne]; [by apply elem_of_nil in Hin|].
      apply elem_of_cons in Hin as [Hin|Hin]; [discriminate Hin|].
      apply list_elem_of_singleton in Hin. by injection Hin as -> ->.
    + by destruct (Hnone _ Hrest).
  - intros (-> & Hne & ->). right. left. right. right.
    destruct (Z.eqb_spec q 0) as [->|_]; [done|]. right. left.
Qed.

Lemma X14_shutdown_callback_registered_witness :
  add_event_detect_FALLING 0 shutdown_handler 200
    ∈ gpio_log (world (snd (start_setup example_shutdown_zero)))
  <-> shutdown_pin (self example_shutdown_zero) = Some 0
      /\ 0 <> 0 /\ 200 = 200.
Proof.
  apply (X14_shutdown_callback_registered example_shutdown_zero 0 200).
  constructor.
Defined.

(* ===================================================================== *)
(** * Further properties: the countdown of [main]                         *)
(* ===================================================================== *)

Lemma countdown_numbers_pos n :
  0 < n -> countdown_numbers n = n :: countdown_numbers (n - 1).
Proof.
  intros Hn. unfold countdown_numbers.
  replace (Z.to_nat n) with (S (Z.to_nat (n - 1))) by lia.
  rewrite seq_S, rev_app_distr. simpl. f_equal. lia.
Qed.

Lemma countdown_numbers_nonpos n : n <= 0 -> countdown_numbers n = [].
Proof.
  intros Hn. unfold countdown_numbers.
  by replace (Z.to_nat n) with 0%nat by lia.
Qed.

Lemma countdown_loop_spec fuel n out :
  (Z.to_nat n <= fuel)%nat ->
  Main.countdown_loop fuel n out
  = Some (Z.min n 0,
          (out ++ concat (map Main.countdown_body (countdown_numbers n)))%list).
Proof.
  revert n out. induction fuel as [|fuel IH]; intros n out Hfuel; simpl.
  - destruct (Z.gtb_spec n 0) as [Hpos|Hle]; [lia|].
    rewrite countdown_numbers_nonpos by lia. simpl.
    rewrite app_nil_r. f_equal. f_equal. lia.
  - destruct (Z.gtb_spec n 0) as [Hpos|Hle].
    + rewrite IH by lia. rewrite (countdown_numbers_pos n) by lia.
      simpl. rewrite <- app_assoc. f_equal. f_equal. lia.
    + rewrite countdown_numbers_nonpos by lia. simpl.
      rewrite app_nil_r. f_equal. f_equal. lia.
Qed.

Lemma seconds_slept_countdown n :
  seconds_slept (concat (map Main.countdown_body (countdown_numbers n)))
  = Z.max n 0.
Proof.
  unfold countdown_numbers.
  assert (forall m : nat,
             seconds_slept
               (concat (map Main.countdown_body
                          (map Z.of_nat (rev (seq 1 m)))))
             = Z.of_nat m) as Hm.
  { induction m as [|m IH]; [done|].
    rewrite seq_S, rev_app_distr. simpl. rewrite IH. lia. }
  rewrite Hm. lia.
Qed.

(** X16.  The countdown of [main] terminates for every value of
    [--countdown]: [max(n, 0)] iterations suffice.  It shows the numbers
    [n, n - 1, ..., 1] in this order, each message written, flushed and
    followed by a sleep of one second, so it waits [max(n, 0)] seconds in
    all; it ends with the counter at 0, and a zero or negative value
    prints nothing and is left as it is. *)
Theorem X16_countdown (fuel : nat) (n : Z) (out : list Main.call) :
  (Z.to_nat n <= fuel)%nat ->
  exists out',
    Main.countdown_loop fuel n out = Some (Z.min n 0, out')
    /\ out'
       = (out ++ concat (map Main.countdown_body (countdown_numbers n)))%list
    /\ seconds_slept out' = seconds_slept out + Z.max n 0
    /\ (n <= 0 -> out' = out)
    /\ (forall k, k ∈ countdown_numbers n <-> 1 <= k <= n)
    /\ StronglySorted Z.gt (countdown_numbers n).
Proof.
  intros Hfuel. eexists. split; [by apply countdown_loop_spec|].
  split; [reflexivity|].
  assert (forall k, k ∈ countdown_numbers n <-> 1 <= k <= n) as Hmem.
  { intros k. unfold countdown_numbers. rewrite list_elem_of_fmap. split.
    - intros (m & -> & Hm).
      rewrite list_elem_of_In, <- in_rev, in_seq in Hm. lia.
    - intros Hk. exists (Z.to_nat k). split; [lia|].
      rewrite list_elem_of_In, <- in_rev, in_seq. lia. }
  split; [|split; [|split; [exact Hmem|]]].
  - assert (forall a b, seconds_slept (a ++ b)%list
                        = seconds_slept a + seconds_slept b) as Happ.
    { intros a b. induction a as [|[s| |s] a IH]; simpl; lia. }
    by rewrite Happ, seconds_slept_countdown.
  - intros Hn. rewrite countdown_numbers_nonpos by done. apply app_nil_r.
  - clear Hfuel Hmem. destruct (Z_le_gt_dec n 0) as [Hn|Hn].
    { rewrite countdown_numbers_nonpos by done. constructor. }
    rewrite <- (Z2Nat.id n) by lia.
    induction (Z.to_nat n) as [|m IH].
    { rewrite countdown_numbers_nonpos by done. constructor. }
    rewrite countdown_numbers_pos by lia.
    replace (Z.of_nat (S m) - 1) with (Z.of_nat m) by lia.
    constructor; [exact IH|]. apply Forall_forall. intros k Hk.
    unfold countdown_numbers in Hk.
    apply list_elem_of_fmap in Hk as (j & -> & Hj).
    rewrite list_elem_of_In, <- in_rev, in_seq in Hj. lia.
Qed.

Lemma X16_countdown_witness :
  exists out',
    Main.countdown_loop 3 3 [] = Some (0, out')
    /\ out' = concat (map Main.countdown_body [3; 2; 1])
    /\ seconds_slept out' = 3.
Proof.
  destruct (X16_countdown 3 3 []) as (out' & Hrun & Hout & Hsecs & _);
    [simpl; lia|].
  exists out'. split; [exact Hrun|]. split; [exact Hout|exact Hsecs].
Defined.

(* ===================================================================== *)
(** * Further properties: the pins are used as they were set up           *)
(* ===================================================================== *)

Lemma well_used_app dirs l1 l2 :
  well_used dirs (l1 ++ l2)%list
  <-> well_used dirs l1 /\ well_used (dirs_after dirs l1) l2.
Proof.
  revert dirs. induction l1 as [|c l1 IH]; intros dirs; simpl.
  - tauto.
  - rewrite IH. unfold dirs_after. simpl. tauto.
Qed.

Lemma dirs_after_app dirs l1 l2 :
  dirs_after dirs (l1 ++ l2)%list = dirs_after (dirs_after dirs l1) l2.
Proof. apply foldl_app. Qed.

Lemma Forall_concat_map_elem {A B} (P : B -> Prop) (f : A -> list B) l :
  (forall x, x ∈ l -> Forall P (f x)) -> Forall P (concat (map f l)).
Proof.
  intros Hf. induction l as [|x l IH]; simpl; [constructor|].
  apply Forall_app. split; [apply Hf; left|].
  apply IH. intros y Hy. apply Hf. by right.
Qed.

(** Routine calls are permitted and change no direction. *)
Lemma routine_calls s dirs cs :
  (forall o, o ∈ out_pins s -> dirs !! o = Some OUT) ->
  (forall i, i ∈ in_pins s -> dirs !! i = Some IN) ->
  Forall (routine s) cs ->
  well_used dirs cs /\ dirs_after dirs cs = dirs.
Proof.
  intros Hout Hin. induction 1 as [|c cs Hc _ [IHw IHd]]; [done|].
  assert (configure c dirs = dirs) as Hsame by (by destruct c).
  unfold dirs_after in *. simpl. rewrite Hsame. split; [|exact IHd].
  split; [|exact IHw].
  destruct c; simpl in *; try done; auto.
Qed.

Lemma routine_step_ready st st' :
  pins_ready st -> routine_step st st' -> pins_ready st'.
Proof.
  intros (Hused & Hout & Hin) (Hpins & cs & Hlog & Hcs).
  destruct (routine_calls _ _ _ Hout Hin Hcs) as [Hw Hd].
  unfold pins_ready, out_pins, in_pins.
  rewrite Hpins, Hlog, dirs_after_app, Hd. split; [|by split].
  apply well_used_app. by split.
Qed.

Lemma routine_step_refl st : routine_step st st.
Proof. split; [done|]. exists []. by rewrite app_nil_r. Qed.

Lemma switch_calls_routine pin s :
  Forall (routine s) (concat (map (switch_calls pin) (gpio_pins s))).
Proof.
  apply Forall_concat_map_elem. intros [i [o|]] Hin; unfold switch_calls;
    simpl; [|constructor].
  constructor; [|constructor]. simpl. apply elem_of_outs. eauto.
Qed.

Lemma reset_calls_routine s :
  Forall (routine s) (concat (map reset_calls (values (gpio_pins s)))).
Proof.
  apply Forall_concat_map_elem. intros [o|] Hin; simpl; [|constructor].
  constructor; [|constructor]. simpl. unfold out_pins.
  apply list_elem_of_omap. by exists (Some o).
Qed.

Lemma detect_calls_routine s :
  Forall (routine s) (concat (map detect_calls (in_pins s))).
Proof.
  apply Forall_concat_map_elem. intros pin Hin.
  constructor; [exact Hin|constructor].
Qed.

Lemma switch_vid_routine pin st : routine_step st (snd (switch_vid pin st)).
Proof.
  split; [apply switch_vid_gpio_pins|].
  eexists. split; [apply switch_vid_gpio_log|apply switch_calls_routine].
Qed.

Lemma poll_iteration_routine st :
  routine_step st (snd (poll_iteration st)).
Proof.
  rewrite poll_iteration_eq. cbn [snd].
  destruct (loop (self st)); [apply routine_step_refl|].
  destruct (_player (self st)) as [p|]; [|apply routine_step_refl].
  destruct (bool_decide (state p = Ended)); [|apply routine_step_refl].
  split; [done|]. eexists. split; [reflexivity|apply reset_calls_routine].
Qed.

Lemma in_callback_routine (m : M unit) st :
  routine_step st (snd (m st)) -> routine_step st (in_callback m st).
Proof. unfold in_callback. by destruct (m st) as [[[]|e] st']. Qed.

Lemma deliver_routine ev st : routine_step st (deliver ev st).
Proof.
  destruct ev as [pin| | |e|]; simpl.
  - destruct (contains pin (gpio_pins (self st)));
      [|apply routine_step_refl].
    apply in_callback_routine, switch_vid_routine.
  - destruct (shutdown_configured (self st)); [|apply routine_step_refl].
    apply in_callback_routine, routine_step_refl.
  - apply poll_iteration_routine.
  - unfold engine_reports.
    destruct (_player (self st)); [|apply routine_step_refl].
    split; [done|]. exists []. simpl. by rewrite app_nil_r.
  - apply routine_step_refl.
Qed.

(** The setup loop sets every pin up before it writes to it. *)
Lemma setup_calls_well_used items dirs :
  well_used dirs (concat (map setup_calls items)).
Proof.
  revert dirs. induction items as [|[i [o|]] items IH]; intros dirs; simpl.
  - done.
  - split; [done|]. split; [done|]. split; [apply lookup_insert_eq|].
    apply IH.
  - split; [done|]. apply IH.
Qed.

Lemma setup_calls_snoc items i oo :
  concat (map setup_calls (items ++ [(i, oo)]))
  = (concat (map setup_calls items) ++ setup_calls (i, oo))%list.
Proof. by rewrite map_app, concat_app; simpl; rewrite app_nil_r. Qed.

Lemma setup_calls_dirs (items : dict (option Z)) dirs :
  (forall p, p ∈ keys items -> p ∉ omap id (values items)) ->
  (forall o, o ∈ omap id (values items) ->
             dirs_after dirs (concat (map setup_calls items)) !! o
             = Some OUT)
  /\ (forall i, i ∈ keys items ->
                dirs_after dirs (concat (map setup_calls items)) !! i
                = Some IN).
Proof.
  induction items as [|[i oo] items IH] using rev_ind; intros Hdis.
  - split; intros p Hp; by apply elem_of_nil in Hp.
  - assert (keys (items ++ [(i, oo)])%list = (keys items ++ [i])%list)
      as Hkeys
        by (unfold keys; by rewrite map_app).
    assert (omap id (values (items ++ [(i, oo)])%list)
            = (omap id (values items)
               ++ match oo with Some o => [o] | None => [] end)%list)
      as Houts.
    { unfold values. rewrite map_app.
      change (omap id (map snd items ++ map snd [(i, oo)])%list)
        with (omap id (map snd items ++ [oo])%list).
      rewrite omap_app. by destruct oo. }
    rewrite Hkeys, Houts in Hdis. rewrite Hkeys, Houts.
    destruct IH as [IHout IHin].
    { intros p Hp Hp'. apply (Hdis p).
      - apply elem_of_app. by left.
      - apply elem_of_app. by left. }
    rewrite setup_calls_snoc, dirs_after_app.
    set (mid := dirs_after dirs (concat (map setup_calls items))) in *.
    assert (forall o, oo = Some o -> i <> o) as Hio.
    { intros o -> ->. apply (Hdis o).
      - apply elem_of_app. right. left.
      - apply elem_of_app. right. left. }
    split.
    + intros o Ho. apply elem_of_app in Ho as [Ho|Ho].
      * assert (i <> o) as Hne.
        { intros ->. apply (Hdis o); apply elem_of_app; [right; left|by left]. }
        specialize (IHout o Ho).
        destruct oo as [o'|]; unfold setup_calls, dirs_after; simpl.
        -- destruct (decide (o' = o)) as [->|Hne'].
           ++ apply lookup_insert_eq.
           ++ by rewrite !lookup_insert_ne.
        -- by rewrite lookup_insert_ne.
      * destruct oo as [o'|]; [|by apply elem_of_nil in Ho].
        apply list_elem_of_singleton in Ho as ->.
        unfold setup_calls, dirs_after. simpl. apply lookup_insert_eq.
    + intros p Hp. apply elem_of_app in Hp as [Hp|Hp].
      * specialize (IHin p Hp).
        assert (forall o, oo = Some o -> o <> p) as Hne.
        { intros o -> ->. apply (Hdis p); apply elem_of_app;
            [by left|right; left]. }
        destruct oo as [o'|]; unfold setup_calls, dirs_after; simpl.
        -- rewrite lookup_insert_ne by (by apply Hne).
           destruct (decide (i = p)) as [->|Hip].
           ++ apply lookup_insert_eq.
           ++ by rewrite lookup_insert_ne.
        -- destruct (decide (i = p)) as [->|Hip].
           ++ apply lookup_insert_eq.
           ++ by rewrite lookup_insert_ne.
      * apply list_elem_of_singleton in Hp as ->.
        destruct oo as [o'|]; unfold setup_calls, dirs_after; simpl.
        -- rewrite lookup_insert_ne
             by (intros Heq; by apply (Hio o' eq_refl)).
           apply lookup_insert_eq.
        -- apply lookup_insert_eq.
Qed.

Lemma pins_set_up_ready st :
  gpio_log (world st) = [] ->
  (forall p, p ∈ in_pins (self st) -> p ∉ out_pins (self st)) ->
  (forall p, shutdown_configured (self st) = Some p ->
             p ∉ out_pins (self st)) ->
  pins_ready (pins_set_up st).
Proof.
  intros Hlog Hdis Hshut. unfold pins_ready.
  change (self (pins_set_up st)) with (self st).
  assert (gpio_log (world (pins_set_up st)) = pin_setup_calls (self st))
    as -> by (simpl; by rewrite Hlog).
  unfold pin_setup_calls.
  change (setmode_BCM :: ?l)%list with ([setmode_BCM] ++ l)%list.
  rewrite !dirs_after_app. change (dirs_after ∅ [setmode_BCM]) with
    (∅ : gmap Z direction).
  destruct (setup_calls_dirs (gpio_pins (self st)) ∅ Hdis) as [Hout Hin].
  set (mid := dirs_after ∅ (concat (map setup_calls (gpio_pins (self st)))))
    in *.
  split; [|split].
  - apply well_used_app. split; [by split|].
    apply well_used_app. split; [apply setup_calls_well_used|].
    destruct (shutdown_configured (self st)) as [p|]; [|done].
    simpl. split; [done|]. split; [apply lookup_insert_eq|done].
  - intros o Ho. specialize (Hout o Ho).
    destruct (shutdown_configured (self st)) as [p|] eqn:Hp; [|exact Hout].
    unfold dirs_after. simpl. rewrite lookup_insert_ne; [exact Hout|].
    intros ->. by apply (Hshut o).
  - intros i Hi. specialize (Hin i Hi).
    destruct (shutdown_configured (self st)) as [p|]; [|exact Hin].
    unfold dirs_after. simpl. destruct (decide (p = i)) as [->|Hne].
    + apply lookup_insert_eq.
    + by rewrite lookup_insert_ne.
Qed.

Lemma start_setup_ready st :
  gpio_log (world st) = [] ->
  (forall p, p ∈ in_pins (self st) -> p ∉ out_pins (self st)) ->
  (forall p, shutdown_configured (self st) = Some p ->
             p ∉ out_pins (self st)) ->
  pins_ready (snd (start_setup st)).
Proof.
  intros Hlog Hdis Hshut.
  pose proof (pins_set_up_ready st Hlog Hdis Hshut) as Hready.
  assert (forall st', pins_ready st' -> pins_ready (callbacks_registered st'))
    as Hreg.
  { intros st' Hst'. apply (routine_step_ready st'); [exact Hst'|].
    split; [done|]. eexists. split; [reflexivity|apply detect_calls_routine]. }
  rewrite start_setup_eq.
  destruct (autostart (self st)); [|by apply Hreg].
  destruct (splash (self st)); [exact Hready|].
  destruct (head (in_pins (self st))) as [first|]; [|exact Hready].
  pose proof (routine_step_ready _ _ Hready
                (switch_vid_routine first (pins_set_up st))) as Hswitch.
  pose proof (switch_vid_gpio_pins first (pins_set_up st)) as Hpins.
  destruct (switch_vid first (pins_set_up st)) as [[[]|e] st'];
    cbn [snd] in *; [|exact Hswitch].
  replace (in_pins (self st)) with (in_pins (self st'))
    by (unfold in_pins; by rewrite Hpins).
  by apply Hreg.
Qed.

Lemma idle_loop_well_used evs st :
  pins_ready st -> well_used ∅ (gpio_log (world (idle_loop evs st))).
Proof.
  revert st. induction evs as [|ev evs IH]; intros st Hready.
  - apply Hready.
  - assert (forall ev', pins_ready (deliver ev' st)) as Hdel.
    { intros ev'. eapply routine_step_ready; [exact Hready|].
      apply deliver_routine. }
    destruct ev; simpl;
      try (apply IH;
           first [ apply (Hdel (Press _)) | apply (Hdel ShutdownEdge)
                 | apply (Hdel Poll) | apply (Hdel (EngineReports _)) ]).
    rewrite del_eq. cbn [snd world gpio_log].
    apply well_used_app. split; [apply Hready|done].
Qed.

(** X19.  When no pin is both an input and an output of the mapping and
    the shutdown pin is no output, every run of [start] uses the pins as
    the GPIO library requires: each write goes to a pin that is set up as
    an output at that moment, and each edge detection is added on a pin
    that is set up as an input at that moment -- under any presses,
    polls and engine reports, and up to the final [cleanup]. *)
Theorem X19_pins_used_as_set_up (evs : list event) (st : St) :
  gpio_log (world st) = [] ->
  (forall p, p ∈ in_pins (self st) -> p ∉ out_pins (self st)) ->
  (forall p, shutdown_configured (self st) = Some p ->
             p ∉ out_pins (self st)) ->
  well_used ∅ (gpio_log (world (snd (start evs st)))).
Proof.
  intros Hlog Hdis Hshut.
  pose proof (start_setup_ready st Hlog Hdis Hshut) as Hready.
  unfold start. destruct (start_setup st) as [[[]|e] st']; cbn [snd] in *.
  - by apply idle_loop_well_used.
  - apply Hready.
Qed.

Lemma X19_pins_used_as_set_up_witness :
  well_used ∅
    (gpio_log (world (snd (start [Press 22; Poll; Press 17; Interrupt]
                                 (mkSt (self example_fresh) initial_world))))).
Proof.
  apply (X19_pins_used_as_set_up [Press 22; Poll; Press 17; Interrupt]
           (mkSt (self example_fresh) initial_world)).
  - reflexivity.
  - intros p Hp Hout. simpl in Hp, Hout.
    apply list_elem_of_singleton in Hout as ->.
    apply elem_of_cons in Hp as [Hp|Hp]; [discriminate Hp|].
    apply list_elem_of_singleton in Hp. discriminate Hp.
  - intros p Hp. discriminate Hp.
Defined.

(* ===================================================================== *)
(** * Further properties: how construction fails                          *)
(* ===================================================================== *)




(* ===================================================================== *)
(** * Further properties: [start] on a constructed looper                 *)
(* ===================================================================== *)

Lemma select_videos_nonempty path_exists listdir a vids :
  select_videos path_exists listdir a = Ok vids -> vids <> [].
Proof.
  intros Hsel ->. unfold select_videos in Hsel.
  destruct (arg_videos a) as [[|v vs]|].
  - destruct (scan_dir _ _) as [[|f fs]|]; simpl in Hsel; discriminate Hsel.
  - destruct (check_videos _ _); simpl in Hsel; discriminate Hsel.
  - destruct (scan_dir _ _) as [[|f fs]|]; simpl in Hsel; discriminate Hsel.
Qed.

Lemma index_head pin l : head l = Some pin -> index pin l = Some 0%nat.
Proof.
  destruct l as [|x l]; [done|]. simpl. intros [= ->].
  by rewrite Z.eqb_refl.
Qed.

(** X18.  On a looper the constructor has returned, the setup of [start]
    fails exactly when autostart is on and a splash image is configured.
    With autostart on and no splash image it starts the first video of
    the list, which becomes the active one; with autostart off it starts
    nothing. *)
Theorem X18_start_of_constructed_looper
        (path_exists : string -> bool)
        (listdir : string -> result (list string))
        (a : Args) (w w' : World) (s : VidLooper) :
  __init__ path_exists listdir a w = (Ok s, w') ->
  (is_ok (fst (start_setup (mkSt s w'))) = false
   <-> arg_autostart a = true /\ arg_splash a <> None)
  /\ (arg_autostart a = true -> arg_splash a = None ->
      exists v,
        head (videos s) = Some v
        /\ _active_vid (self (snd (start_setup (mkSt s w')))) = Some v
        /\ _player (self (snd (start_setup (mkSt s w'))))
           = Some (session_player (arg_loop a) v))
  /\ (arg_autostart a = false ->
      _active_vid (self (snd (start_setup (mkSt s w')))) = None
      /\ vlc_log (world (snd (start_setup (mkSt s w')))) = vlc_log w').
Proof.
  unfold __init__.
  destruct (select_videos path_exists listdir a) as [vids|e] eqn:Hsel;
    [|done].
  destruct (Nat.leb_spec (length vids) (length (pins_of a))) as [Hle|Hgt];
    [|done].
  intros [= <- <-]. apply select_videos_nonempty in Hsel.
  destruct vids as [|v vids]; [done|]. clear Hsel.
  destruct (pins_of a) as [|[first o] pins] eqn:Hpins; [simpl in Hle; lia|].
  set (s := mkVidLooper _ _ _ _ _ _ _ _ _ _ _ _ _ _).
  set (w' := mkWorld _ _ _ _).
  assert (head (in_pins s) = Some first) as Hhead by reflexivity.
  assert (switch_vid first (pins_set_up (mkSt s w'))
          = (Ok tt, session_started (arg_loop a) v
                      (outputs_written first (pins_set_up (mkSt s w')))))
    as Hswitch.
  { rewrite switch_vid_eq.
    change (self (pins_set_up (mkSt s w'))) with s.
    rewrite (index_head _ _ Hhead).
    change (videos s !! 0%nat) with (Some v).
    change (_active_vid s) with (@None string).
    cbv beta iota. rewrite bool_decide_eq_false_2 by done.
    by apply (play_video_Some _ _ (mkPlayer None NothingSpecial)). }
  rewrite start_setup_eq. change (self (mkSt s w')) with s.
  change (autostart s) with (arg_autostart a).
  change (splash s) with (arg_splash a).
  destruct (arg_autostart a).
  - destruct (arg_splash a) as [image|].
    + split; [by split|]. by split.
    + rewrite Hhead, Hswitch. cbn [fst snd is_ok]. split; [|split].
      * split; [done|]. by intros [_ []].
      * intros _ _. exists v. by repeat split.
      * done.
  - split; [|split]; [|done|by intros _].
    split; [done|]. by intros [? _].
Qed.

Lemma X18_start_of_constructed_looper_witness :
  exists v,
    head (videos (self example_fresh)) = Some v
    /\ _active_vid (self (snd (start_setup example_fresh))) = Some v
    /\ _player (self (snd (start_setup example_fresh)))
       = Some (session_player true v).
Proof.
  apply (proj1 (proj2
           (X18_start_of_constructed_looper (fun _ => true) (fun _ => Ok [])
              (mkArgs "hdmi" true false "/home/pi" (Some ["A.mp4"; "B.mp4"])
                 (Some [(17, Some 27); (22, None)]) true false None None
                 false)
              initial_world (world example_fresh) (self example_fresh)
              eq_refl)));
    reflexivity.
Defined.
